(** * McGinley Dynamic ([pandas_ta/overlap/mcgd.py]): embedding and properties

    The indicator is a dozen lines of Python over pandas.  Its behaviour
    rests on one pandas mechanism: [rolling(2).apply(mcg_, raw=True)] hands
    the callback a numpy _view_ of a single float64 buffer, and [mcg_] writes
    its result into slot 1 of that view.  The next window therefore reads
    the value the previous call stored.  The model keeps that store
    explicit: buffers live in a heap, a window is a (buffer, start, stop)
    triple, and [mcg_] is a stateful computation.

    Numbers are IEEE binary64 ([PrimFloat.float]); missing values of a
    float Series are NaN.  The Series index is not modelled (every
    operation here is positional).

    One operation is not IEEE arithmetic: [x ** 4] on a numpy float64 is the
    C library's [pow], whose last bit the library does not promise.  The
    model takes it as a parameter [pow4 : float -> float] of [mcg_] and of
    everything built on it; what is proved holds for every such function. *)

From Stdlib Require Import ZArith PrimFloat FloatOps SpecFloat.
From stdpp Require Import base option list gmap strings pretty.

(** ** Floating point *)

Module F.

(** The integer [z] rounded to the nearest float64, ties to even. *)
Definition rn_int (z : Z) : float :=
  SF2Prim (binary_normalize 53%Z 1024%Z z 0%Z false).

(** The integers Python converts to a float: those that round to a finite
    one.  The largest float is [2^1024 - 2^971]; half a unit above it the
    tie goes to [2^1024], which is out of range. *)
Definition fits (z : Z) : bool := (Z.abs z <? 2 ^ 1024 - 2 ^ 970)%Z.

(** Python [int] to float64 ([float(z)], and the conversion inside
    [float * int]): OverflowError, here [None], beyond the float range. *)
Definition of_int (z : Z) : option float :=
  if fits z then Some (rn_int z) else None.

(** A reference power: the exact fourth power, rounded once to nearest
    even, with the values the C standard (Annex F) fixes for [pow] at
    infinity, zero and NaN.  It serves to run examples; no general statement
    depends on it. *)
Definition pow_rn (x : float) : float :=
  match Prim2SF x with
  | S754_zero _ => 0%float
  | S754_infinity _ => infinity
  | S754_nan => nan
  | S754_finite _ m e =>
      SF2Prim (binary_normalize 53%Z 1024%Z (Z.pos m ^ 4) (4 * e)%Z false)
  end.

(** [numpy.isinf], [numpy.isfinite], [pandas.isna] on a float64. *)
Definition isinf (x : float) : bool := is_infinity x.
Definition isfinite (x : float) : bool := is_finite x.
Definition isna (x : float) : bool := is_nan x.

(** Python truthiness of a float: [bool(x)] is [x != 0.0]. *)
Definition truthy (x : float) : bool := negb (x =? 0)%float.

End F.

(** ** The store and the computation monad *)

Definition loc := nat.
Bind Scope nat_scope with loc.

Inductive exn : Set :=
| IndexError        (* subscript outside an array *)
| OverflowError     (* int too large to convert to float *)
| DanglingReference (* a location the store does not hold; never a Python state *).

(** A computation ends by returning a value or by raising; either way it
    leaves a store behind. *)
Inductive outcome (A : Type) : Type :=
| Ok (a : A) (h : gmap loc (list float))
| Raise (e : exn) (h : gmap loc (list float)).
Arguments Ok {A} a h.
Arguments Raise {A} e h.

Definition M (A : Type) : Type := gmap loc (list float) → outcome A.

Definition ret {A} (a : A) : M A := fun h => Ok a h.

Definition bind {A B} (m : M A) (k : A → M B) : M B :=
  fun h => match m h with
           | Ok a h' => k a h'
           | Raise e h' => Raise e h'
           end.

Definition raise {A} (e : exn) : M A := fun h => Raise e h.

Notation "x <- m ;; k" := (bind m (fun x => k))
  (at level 20, m at level 99, k at level 200,
   format "'[v' x  <-  m  ;; '/' k ']'").

Definition alloc (xs : list float) : M loc :=
  fun h => let l := fresh (dom h) in Ok l (<[l := xs]> h).

Definition load (l : loc) : M (list float) :=
  fun h => match h !! l with
           | Some xs => Ok xs h
           | None => Raise DanglingReference h
           end.

Definition store (l : loc) (xs : list float) : M unit :=
  fun h => match h !! l with
           | Some _ => Ok tt (<[l := xs]> h)
           | None => Raise DanglingReference h
           end.

(** ** numpy arrays as views *)

(** A one-dimensional float64 array: the buffer it lives in and the
    half-open range of the buffer it covers.  Two arrays with the same
    [base] share memory. *)
Record ndarray : Set := { base : loc; start : nat; stop : nat }.

Definition size (a : ndarray) : nat := stop a - start a.

(** [a[lo:hi]] for non-negative bounds: a view, clipped to [a]. *)
Definition subarray (a : ndarray) (lo hi : nat) : ndarray :=
  {| base := base a;
     start := start a + lo `min` size a;
     stop := start a + (lo `max` hi) `min` size a |}.

(** [a[k]] for a non-negative [k]. *)
Definition getitem (a : ndarray) (k : nat) : M float :=
  buf <- load (base a) ;;
  if decide (k < size a) then
    match buf !! (start a + k) with
    | Some x => ret x
    | None => raise IndexError
    end
  else raise IndexError.

(** [a[k] = x] for a non-negative [k]: writes through to the buffer. *)
Definition setitem (a : ndarray) (k : nat) (x : float) : M unit :=
  buf <- load (base a) ;;
  if decide (k < size a ∧ start a + k < length buf) then
    store (base a) (<[start a + k := x]> buf)
  else raise IndexError.

(** The elements an array covers. *)
Definition tolist (a : ndarray) : M (list float) :=
  buf <- load (base a) ;;
  ret (take (size a) (drop (start a) buf)).

(** A fresh array holding [xs]. *)
Definition array (xs : list float) : M ndarray :=
  l <- alloc xs ;;
  ret {| base := l; start := 0; stop := length xs |}.

(** ** pandas Series *)

Record Series : Set := {
  values : ndarray;
  name : option string;
  category : option string
}.

Definition with_values (s : Series) (a : ndarray) : Series :=
  {| values := a; name := name s; category := category s |}.

(** [s.copy()]: a deep copy, the data goes to a new buffer. *)
Definition Series_copy (s : Series) : M Series :=
  xs <- tolist (values s) ;;
  a <- array xs ;;
  ret (with_values s a).

(** [s[lo:]] and [s[:hi]] (positional, non-negative): a Series over a view
    of the same buffer. *)
Definition Series_from (s : Series) (lo : nat) : Series :=
  with_values s (subarray (values s) lo (size (values s))).

Definition Series_upto (s : Series) (hi : nat) : Series :=
  with_values s (subarray (values s) 0 hi).

(** [s.append(other)]: a new Series, the two value ranges concatenated. *)
Definition Series_append (s other : Series) : M Series :=
  xs <- tolist (values s) ;;
  ys <- tolist (values other) ;;
  a <- array (xs ++ ys) ;;
  ret {| values := a;
         name := if decide (name s = name other) then name s else None;
         category := None |}.

(** [s.shift(periods)] on plain lists: positions move by [periods], the
    vacated ones become NaN, what moves past either end is lost. *)
Definition shift (periods : Z) (xs : list float) : list float :=
  let n := length xs in
  let k := Z.abs_nat periods `min` n in
  if (0 <=? periods)%Z then replicate k nan ++ take (n - k) xs
  else drop k xs ++ replicate k nan.

Definition Series_shift (s : Series) (periods : Z) : M Series :=
  xs <- tolist (values s) ;;
  a <- array (shift periods xs) ;;
  ret (with_values s a).

(** [fillna(value)]: every missing position takes [value]. *)
Definition fill_value (v : float) (xs : list float) : list float :=
  (fun x => if F.isna x then v else x) <$> xs.

(** [fillna(method=...)] accepts exactly two strategies: forward fill
    ("pad"/"ffill") and backward fill ("backfill"/"bfill"). *)
Inductive fill_method_t : Set := ffill | bfill.

(** Forward fill: a missing position takes the last valid value before
    it; a leading run of missing values stays. *)
Fixpoint pad (last : option float) (xs : list float) : list float :=
  match xs with
  | [] => []
  | x :: xs' =>
      if F.isna x then default x last :: pad last xs'
      else x :: pad (Some x) xs'
  end.

Definition fill_with (m : fill_method_t) (xs : list float) : list float :=
  match m with
  | ffill => pad None xs
  | bfill => reverse (pad None (reverse xs))
  end.

(** [s.fillna(..., inplace=True)]: the Series' own data is overwritten. *)
Definition Series_update (s : Series) (f : list float → list float) : M unit :=
  buf <- load (base (values s)) ;;
  let a := values s in
  store (base a)
    (take (start a) buf ++ f (take (size a) (drop (start a) buf))
       ++ drop (stop a `max` start a) buf).

Definition Series_fillna (s : Series) (v : float) : M unit :=
  Series_update s (fill_value v).

Definition Series_fillna_method (s : Series) (m : fill_method_t) : M unit :=
  Series_update s (fill_with m).

(** ** [rolling(window, min_periods).apply(function, raw=True)] *)

(** [Rolling._prep_values]: the data as float64; when it holds an
    infinity, a new array with every infinity turned into NaN, otherwise the
    array itself. *)
Definition kill_inf (x : float) : float := if F.isinf x then nan else x.

Definition prep_values (a : ndarray) : M ndarray :=
  xs <- tolist a ;;
  if existsb F.isinf xs then array (kill_inf <$> xs)
  else ret a.

(** Bounds of the fixed right-closed window ending at each position:
    [start[i] = max(i + 1 - window, 0)], [end[i] = i + 1]. *)
Definition window_bounds (n window : nat) : list (nat * nat) :=
  (fun i => (i + 1 - window, i + 1)) <$> seq 0 n.

(** [roll_sum(isfinite(arr), start, end, minp)]: per window the number of
    finite entries, or nothing (NaN) when the window itself is shorter than
    [minp]. *)
Definition window_count (xs : list float) (minp : nat) (b : nat * nat)
    : option nat :=
  let '(s, e) := b in
  if decide (minp ≤ e - s)
  then Some (length (filter (fun x => F.isfinite x = true)
                       (take (e - s) (drop s xs))))
  else None.

Definition roll_counts (xs : list float) (minp : nat)
    (bounds : list (nat * nat)) : list (option nat) :=
  window_count xs minp <$> bounds.

(** [counts[i] >= minp]; a NaN count compares false. *)
Definition enough (cnt : option nat) (minp : nat) : bool :=
  match cnt with
  | Some k => bool_decide (minp ≤ k)
  | None => false
  end.

(** The loop of [roll_apply] ([pandas/_libs/window/aggregations.pyx]):

      for i in range(N):
          if counts[i] >= minp: output[i] = function(arr[s:e])
          else:                 output[i] = NaN

    With [raw=True] the argument is the numpy slice [arr[s:e]], a view of
    the one array [arr]: what [function] stores through it is what later
    windows find.  The counts were taken before the loop, from the array as
    it was then. *)
Fixpoint roll_loop (function : ndarray → M float) (arr : ndarray)
    (minp : nat) (ws : list (nat * nat * option nat)) : M (list float) :=
  match ws with
  | [] => ret []
  | (s, e, cnt) :: ws' =>
      y <- (if enough cnt minp then function (subarray arr s e)
            else ret nan) ;;
      ys <- roll_loop function arr minp ws' ;;
      ret (y :: ys)
  end.

Definition roll_apply (arr : ndarray) (bounds : list (nat * nat))
    (minp : nat) (function : ndarray → M float) : M (list float) :=
  xs <- tolist arr ;;
  if decide (length xs = 0) then ret []
  else
    let counts := roll_counts xs minp bounds in
    roll_loop function arr minp (zip bounds counts).

Definition Series_rolling_apply (s : Series) (window min_periods : nat)
    (function : ndarray → M float) : M Series :=
  arr <- prep_values (values s) ;;
  out <- roll_apply arr (window_bounds (size arr) window) min_periods function ;;
  a <- array out ;;
  ret (with_values s a).

(** ** [pandas_ta.utils] *)

(** Modelled from the spec: [verify_series] (in [pandas_ta/utils], not part
    of the sources at hand) is the sanitizer of section 6: it hands back the
    sequence when there is one and it holds at least [min_length] elements,
    and nothing otherwise. *)
Definition verify_series (series : option Series) (min_length : Z)
    : option Series :=
  match series with
  | Some s => if (Z.of_nat (size (values s)) <? min_length)%Z then None
              else Some s
  | None => None
  end.

(** Modelled from the spec: [get_offset] (in [pandas_ta/utils], not part of
    the sources at hand) yields the integer offset, 0 when none is given. *)
Definition get_offset (x : option Z) : Z := default 0%Z x.

(** ** [mcgd] *)

(** [**kwargs]: the two keys the function looks at, each present or not. *)
Record Kwargs : Set := {
  fillna : option float;
  fill_method : option fill_method_t
}.

Definition no_kwargs : Kwargs := {| fillna := None; fill_method := None |}.

(** [c * length], a Python float times a Python int: the int is converted
    first. *)
Definition float_times_int (c : float) (n : Z) : M float :=
  match F.of_int n with
  | Some f => ret (c * f)%float
  | None => raise OverflowError
  end.

(** The closure [mcg_], lines 44 to 47 (it captures [c] and [length]).
    Line 45 computes [c * length] before it reads the window; every
    [series[k]] is a read of the window, in evaluation order; line 46
    assigns slot 1 of the window.  [pow4] stands for [** 4]. *)
Definition mcg_ (pow4 : float → float) (c : float) (length : Z)
    (series : ndarray) : M float :=
  cl <- float_times_int c length ;;
  s1 <- getitem series 1 ;;
  s0 <- getitem series 0 ;;
  let denom := (cl * pow4 (s1 / s0))%float in
  a0 <- getitem series 0 ;;
  a1 <- getitem series 1 ;;
  b0 <- getitem series 0 ;;
  _ <- setitem series 1 (a0 + ((a1 - b0) / denom))%float ;;
  getitem series 1.

(** Lines 42 to 50, the block under [# Calculate Result]: the engine, from
    the sanitised [close] to [mcg_ds] before offset and fills. *)
Definition calculate_result (pow4 : float → float) (c : float)
    (length : Z) (close : Series) : M Series :=
  close <- Series_copy close ;;
  mcg_cell <- Series_rolling_apply (Series_from close 0) 2 2
                (mcg_ pow4 c length) ;;
  Series_append (Series_upto close 1) (Series_from mcg_cell 1).

(** Line 34: [int(length) if length and length > 0 else 10]. *)
Definition valid_length (length : option Z) : Z :=
  match length with
  | Some n => if (negb (n =? 0) && (0 <? n))%Z then n else 10%Z
  | None => 10%Z
  end.

(** Line 35: [float(c) if c and 0 < c <= 1 else 1]. *)
Definition valid_c (c : option float) : float :=
  match c with
  | Some x => if F.truthy x && ((0 <? x) && (x <=? 1))%float then x
              else 1%float
  | None => 1%float
  end.

Definition mcgd (pow4 : float → float) (close : option Series)
    (length : option Z) (offset : option Z) (c : option float)
    (kwargs : Kwargs) : M (option Series) :=
  (* Validate arguments *)
  let length := valid_length length in
  let c := valid_c c in
  let close := verify_series close length in
  let offset := get_offset offset in
  match close with
  | None => ret None
  | Some close =>
      mcg_ds <- calculate_result pow4 c length close ;;
      (* Offset *)
      mcg_ds <- (if negb (offset =? 0)%Z then Series_shift mcg_ds offset
                 else ret mcg_ds) ;;
      (* Handle fills *)
      _ <- match fillna kwargs with
           | Some v => Series_fillna mcg_ds v
           | None => ret tt
           end ;;
      _ <- match fill_method kwargs with
           | Some m => Series_fillna_method mcg_ds m
           | None => ret tt
           end ;;
      (* Name & Category *)
      ret (Some {| values := values mcg_ds;
                   name := Some ("MCGD_" +:+ pretty length);
                   category := Some "overlap" |})
  end.

(** A caller's Series over the whole of buffer [l]. *)
Definition series_at (l : loc) (n : nat) : Series :=
  {| values := {| base := l; start := 0; stop := n |};
     name := None; category := None |}.

(** A store holding one buffer, at location 0. *)
Definition store_of (xs : list float) : gmap loc (list float) :=
  {[ 0 := xs ]}.

(** ** Closed forms

    Pure functions on lists that the lemmas below prove the stateful
    code computes.  They are consequences of the embedding, not part of it. *)

(** What one call of [mcg_] stores and returns, from the two values it
    finds in its window, when [length] converts to a float. *)
Definition mcg_step (pow4 : float → float) (c : float) (length : Z)
    (s0 s1 : float) : float :=
  (s0 + ((s1 - s0) / (c * F.rn_int length * pow4 (s1 / s0))))%float.

(** The loop from position [i] on.  [praw] is what the rolling array held
    at [i - 1] before the loop started (the observation counts were taken
    then), [p] is what it holds there now. *)
Fixpoint rec_from (pow4 : float → float) (c : float) (length : Z)
    (praw p : float) (rest : list float) : list float :=
  match rest with
  | [] => []
  | x :: rest' =>
      if F.isfinite praw && F.isfinite x then
        let y := mcg_step pow4 c length p x in
        y :: rec_from pow4 c length x y rest'
      else nan :: rec_from pow4 c length x x rest'
  end.

(** The result of the rolling apply: no value at position 0 (one
    observation, two wanted), the loop from position 1 on. *)
Definition rolled (pow4 : float → float) (c : float) (length : Z)
    (xs : list float) : list float :=
  match kill_inf <$> xs with
  | [] => []
  | a0 :: rest => nan :: rec_from pow4 c length a0 a0 rest
  end.

(** [close[:1].append(mcg_cell[1:])]. *)
Definition mcginley (pow4 : float → float) (c : float) (length : Z)
    (xs : list float) : list float :=
  take 1 xs ++ drop 1 (rolled pow4 c length xs).

(** Offset and fills, as [mcgd] applies them to [mcg_ds]. *)
Definition finish (offset : Z) (kwargs : Kwargs) (ys : list float)
    : list float :=
  let ys := if negb (offset =? 0)%Z then shift offset ys else ys in
  let ys := match fillna kwargs with Some v => fill_value v ys | None => ys end in
  match fill_method kwargs with Some m => fill_with m ys | None => ys end.

(** The data of an array in a store, when the array is one numpy can
    hold: it lies within its buffer, and its bounds are machine integers
    ([npy_intp], 63 bits and a sign). *)
Definition contents (h : gmap loc (list float)) (a : ndarray)
    : option (list float) :=
  buf ← h !! base a;
  if decide (start a ≤ stop a ≤ length buf ∧ (Z.of_nat (stop a) < 2 ^ 63)%Z)
  then Some (take (size a) (drop (start a) buf)) else None.

(** What a computation leaves as its result. *)
Definition result_of (o : outcome Series) : option (list float) :=
  match o with
  | Ok s h => contents h (values s)
  | Raise _ _ => None
  end.

(** The store a computation leaves behind, however it ends. *)
Definition final_store {A} (o : outcome A) : gmap loc (list float) :=
  match o with
  | Ok _ h => h
  | Raise _ h => h
  end.

Definition returned (o : outcome (option Series)) : option (list float) :=
  match o with
  | Ok (Some s) h => contents h (values s)
  | _ => None
  end.

(** Weakest precondition: the computation returns, in a state and with a
    value that satisfy [Q]. *)
Definition wp {A} (m : M A) (h : gmap loc (list float))
    (Q : A → gmap loc (list float) → Prop) : Prop :=
  match m h with
  | Ok a h' => Q a h'
  | Raise _ _ => False
  end.

(** On every run from a store that extends [h0], returning or raising,
    the store left behind extends [h0]: nothing [h0] holds is written.  A
    returned value satisfies [Q]. *)
Definition frames (h0 : gmap loc (list float)) {A} (m : M A)
    (Q : A → Prop) : Prop :=
  ∀ h, h0 ⊆ h →
    match m h with
    | Ok a h' => h0 ⊆ h' ∧ Q a
    | Raise _ h' => h0 ⊆ h'
    end.

(** * Properties *)

Section wp_rules.
Context {A B : Type}.
Implicit Types (h : gmap loc (list float)) (l : loc) (xs : list float).

Lemma wp_ret (a : A) h Q : Q a h → wp (ret a) h Q.
Proof. done. Qed.

Lemma wp_bind (m : M A) (k : A → M B) h Q :
  wp m h (fun a h' => wp (k a) h' Q) → wp (x <- m ;; k x) h Q.
Proof. unfold wp, bind. by destruct (m h). Qed.

Lemma wp_mono (m : M A) h (Q Q' : A → gmap loc (list float) → Prop) :
  wp m h Q → (∀ a h', Q a h' → Q' a h') → wp m h Q'.
Proof. unfold wp. destruct (m h); naive_solver. Qed.

Lemma wp_elim (m : M A) h Q :
  wp m h Q → ∃ a h', m h = Ok a h' ∧ Q a h'.
Proof. unfold wp. destruct (m h); naive_solver. Qed.

End wp_rules.

Section store_rules.
Implicit Types (h : gmap loc (list float)) (l : loc) (xs : list float).

Lemma wp_load l h xs (Q : list float → _ → Prop) :
  h !! l = Some xs → Q xs h → wp (load l) h Q.
Proof. unfold wp, load. by intros ->. Qed.

Lemma wp_store l h xs (Q : unit → _ → Prop) :
  is_Some (h !! l) → Q tt (<[l := xs]> h) → wp (store l xs) h Q.
Proof. unfold wp, store. by intros [? ->]. Qed.

Lemma wp_alloc h xs (Q : loc → _ → Prop) :
  (∀ l, h !! l = None → Q l (<[l := xs]> h)) → wp (alloc xs) h Q.
Proof.
  intros HQ. unfold wp, alloc. apply HQ.
  apply not_elem_of_dom, is_fresh.
Qed.

Lemma wp_getitem a k h buf x (Q : float → _ → Prop) :
  h !! base a = Some buf → k < size a → buf !! (start a + k) = Some x →
  Q x h → wp (getitem a k) h Q.
Proof.
  intros Hb Hk Hx HQ. unfold getitem. apply wp_bind.
  eapply wp_load; [done|]. rewrite decide_True by done. by rewrite Hx.
Qed.

Lemma wp_setitem a k x h buf (Q : unit → _ → Prop) :
  h !! base a = Some buf → k < size a → start a + k < length buf →
  Q tt (<[base a := <[start a + k := x]> buf]> h) →
  wp (setitem a k x) h Q.
Proof.
  intros Hb Hk Hl HQ. unfold setitem. apply wp_bind.
  eapply wp_load; [done|]. rewrite decide_True by done.
  by apply wp_store.
Qed.

Lemma wp_tolist a h buf (Q : list float → _ → Prop) :
  h !! base a = Some buf →
  Q (take (size a) (drop (start a) buf)) h → wp (tolist a) h Q.
Proof.
  intros Hb HQ. unfold tolist. apply wp_bind. by eapply wp_load.
Qed.

Lemma wp_array h xs (Q : ndarray → _ → Prop) :
  (∀ l, h !! l = None →
        Q {| base := l; start := 0; stop := length xs |} (<[l := xs]> h)) →
  wp (array xs) h Q.
Proof.
  intros HQ. unfold array. apply wp_bind, wp_alloc. intros l Hl.
  by apply HQ.
Qed.

End store_rules.

(** One read [x <- getitem a k ;; ...] of a known buffer. *)
Ltac wp_read :=
  apply wp_bind; eapply wp_getitem;
  [done | lia | by rewrite ?Nat.add_0_r, ?Nat.add_1_r | ].

Lemma fits_small z : (0 ≤ z < 2 ^ 63)%Z → F.fits z = true.
Proof.
  intros Hz. unfold F.fits. apply Z.ltb_lt.
  assert (2 ^ 63 < 2 ^ 1024 - 2 ^ 970)%Z by (by vm_compute).
  lia.
Qed.

Lemma pow_rn_special_values :
  F.pow_rn infinity = infinity ∧ F.pow_rn neg_infinity = infinity ∧
  F.pow_rn 0 = 0%float ∧ F.pow_rn 1 = 1%float.
Proof. by vm_compute. Qed.

(** From here to the end of the section the power function is any function
    whatever. *)
Section model.
Variable pow4 : float → float.

Section engine.
Context (c : float) (len : Z) (Hfits : F.fits len = true).
Implicit Types (h : gmap loc (list float)) (l : loc) (xs buf : list float).

Lemma mcg__spec l s h buf a b (Q : float → _ → Prop) :
  h !! l = Some buf → buf !! s = Some a → buf !! S s = Some b →
  (let y := mcg_step pow4 c len a b in Q y (<[l := <[S s := y]> buf]> h)) →
  wp (mcg_ pow4 c len {| base := l; start := s; stop := s + 2 |}) h Q.
Proof.
  intros Hl Ha Hb HQ. unfold mcg_, float_times_int, F.of_int.
  rewrite Hfits. apply wp_bind, wp_ret.
  assert (Hsz : size {| base := l; start := s; stop := s + 2 |} = 2)
    by (unfold size; simpl; lia).
  assert (Hlen : S s < length buf) by (by eapply lookup_lt_Some).
  do 5 wp_read.
  apply wp_bind. eapply wp_setitem; [done|lia|simpl; lia|].
  simpl. rewrite Nat.add_1_r.
  eapply wp_getitem.
  - simpl. apply lookup_insert_eq.
  - lia.
  - simpl. rewrite Nat.add_1_r. by apply list_lookup_insert_eq.
  - apply HQ.
Qed.

Lemma zip_fmap_self {X Y} (f : X → Y) (bs : list X) :
  zip bs (f <$> bs) = (fun b => (b, f b)) <$> bs.
Proof. induction bs as [|b bs IH]; simpl; by f_equal. Qed.

Lemma enough_pair raw rawpre praw x rest :
  raw = rawpre ++ praw :: x :: rest →
  enough (window_count raw 2 (length rawpre, length rawpre + 2)) 2
  = F.isfinite praw && F.isfinite x.
Proof.
  intros ->. unfold window_count, enough.
  rewrite decide_True by lia.
  replace (length rawpre + 2 - length rawpre) with 2 by lia.
  rewrite drop_app_length. simpl.
  rewrite !filter_cons, take_0, filter_nil.
  destruct (F.isfinite praw), (F.isfinite x);
    repeat (case_decide; try done); simpl;
    first [apply bool_decide_eq_true_2; lia
          |apply bool_decide_eq_false_2; lia].
Qed.

Lemma roll_loop_spec l n raw : ∀ rest pre rawpre praw p h,
  h !! l = Some (pre ++ p :: rest) →
  length rawpre = length pre →
  n = length pre + 1 + length rest →
  raw = rawpre ++ praw :: rest →
  wp (roll_loop (mcg_ pow4 c len) {| base := l; start := 0; stop := n |} 2
        ((fun i => let b := (i + 1 - 2, i + 1) in (b, window_count raw 2 b))
           <$> seq (S (length pre)) (length rest))) h
     (fun out h' =>
        out = rec_from pow4 c len praw p rest ∧
        ∃ rest', length rest' = length rest ∧
                 h' = <[l := pre ++ p :: rest']> h).
Proof.
  induction rest as [|x rest IH]; intros pre rawpre praw p h Hl Hpre Hn Hraw.
  - simpl. apply wp_ret. split; [done|]. exists []. split; [done|].
    by rewrite insert_id.
  - cbn [length seq fmap list_fmap roll_loop].
    replace (S (length pre) + 1 - 2) with (length rawpre) by lia.
    replace (S (length pre) + 1) with (length rawpre + 2) by lia.
    rewrite (enough_pair raw rawpre praw x rest) by done.
    apply wp_bind.
    destruct (F.isfinite praw && F.isfinite x) eqn:Hfin.
    + replace (subarray _ _ _) with
        {| base := l; start := length pre; stop := length pre + 2 |}
        by (unfold subarray, size; simpl in *; f_equal; lia).
      eapply (mcg__spec _ _ _ _ p x); [done| | |].
      { by rewrite lookup_app_r, Nat.sub_diag by lia. }
      { rewrite lookup_app_r by lia.
        by replace (S (length pre) - length pre) with 1 by lia. }
      simpl. apply wp_bind.
      set (y := mcg_step pow4 c len p x).
      assert (Hins : <[S (length pre) := y]> (pre ++ p :: x :: rest)
                     = (pre ++ [p]) ++ y :: rest).
      { rewrite insert_app_r_alt by lia.
        replace (S (length pre) - length pre) with 1 by lia.
        simpl. by rewrite <- app_assoc. }
      rewrite Hins.
      assert (Hlast : length (pre ++ [p]) = S (length pre))
        by (rewrite length_app; simpl; lia).
      eapply wp_mono.
      { rewrite <- Hlast.
        apply (IH (pre ++ [p]) (rawpre ++ [praw]) x y).
        - apply lookup_insert_eq.
        - rewrite !length_app. simpl. lia.
        - rewrite length_app. simpl in *. lia.
        - by rewrite <- app_assoc. }
      intros out h' [-> (rest' & Hlen & ->)]. apply wp_ret. split.
      * simpl. by rewrite Hfin.
      * exists (y :: rest'). split; [simpl; lia|].
        rewrite insert_insert_eq. by rewrite <- app_assoc.
    + apply wp_ret. apply wp_bind.
      assert (Hlast : length (pre ++ [p]) = S (length pre))
        by (rewrite length_app; simpl; lia).
      eapply wp_mono.
      { rewrite <- Hlast.
        apply (IH (pre ++ [p]) (rawpre ++ [praw]) x x).
        - by rewrite <- app_assoc.
        - rewrite !length_app. simpl. lia.
        - rewrite length_app. simpl in *. lia.
        - by rewrite <- app_assoc. }
      intros out h' [-> (rest' & Hlen & ->)]. apply wp_ret. split.
      * simpl. by rewrite Hfin.
      * exists (x :: rest'). split; [simpl; lia|].
        by rewrite <- app_assoc.
Qed.

Lemma kill_inf_id xs : existsb F.isinf xs = false → kill_inf <$> xs = xs.
Proof.
  induction xs as [|x xs IH]; [done|]. intros H. simpl in H.
  apply orb_false_iff in H as [Hx Hxs]. rewrite fmap_cons.
  unfold kill_inf at 1. rewrite Hx. by rewrite IH.
Qed.

(** [roll_apply] on a whole array whose buffer holds [axs]. *)
Lemma roll_apply_spec la axs h (Q : list float → _ → Prop) :
  h !! la = Some axs →
  (∀ buf', length buf' = length axs → take 1 buf' = take 1 axs →
     Q (match axs with
        | [] => []
        | a0 :: rest => nan :: rec_from pow4 c len a0 a0 rest
        end) (<[la := buf']> h)) →
  wp (roll_apply {| base := la; start := 0; stop := length axs |}
        (window_bounds (length axs) 2) 2 (mcg_ pow4 c len)) h Q.
Proof.
  intros Hla HQ. unfold roll_apply. apply wp_bind.
  eapply wp_tolist; [done|]. unfold size. simpl.
  rewrite Nat.sub_0_r, drop_0, firstn_all.
  destruct axs as [|a0 rest].
  - simpl. apply wp_ret. specialize (HQ [] eq_refl eq_refl).
    by rewrite insert_id in HQ.
  - rewrite decide_False by done.
    unfold roll_counts, window_bounds. rewrite zip_fmap_self.
    rewrite <- list_fmap_compose.
    cbn [length seq fmap list_fmap roll_loop compose window_count enough].
    rewrite decide_False by lia. simpl enough. cbn iota.
    apply wp_bind, wp_ret. apply wp_bind.
    eapply wp_mono.
    { apply (roll_loop_spec la (S (length rest)) (a0 :: rest)
               rest [] [] a0 a0 h); simpl; done || lia. }
    intros out h' [-> (rest' & Hlen & ->)]. apply wp_ret.
    apply HQ; simpl; [lia|done].
Qed.

Lemma tolist_whole l (xs : list float) :
  take (size {| base := l; start := 0; stop := length xs |})
    (drop (start {| base := l; start := 0; stop := length xs |}) xs) = xs.
Proof. unfold size. simpl. by rewrite Nat.sub_0_r, firstn_all. Qed.

Lemma length_rolled xs : length (rolled pow4 c len xs) = length xs.
Proof.
  unfold rolled. destruct xs as [|x0 rest]; [done|]. simpl. f_equal.
  generalize (kill_inf x0) at 1 as praw. generalize (kill_inf x0) as p.
  induction rest as [|x rest IH]; intros p praw; [done|]. simpl.
  destruct (_ && _); simpl; by rewrite IH.
Qed.

Lemma Series_rolling_apply_spec h0 s l xs h (Q : Series → _ → Prop) :
  h0 ⊆ h → h0 !! l = None → h !! l = Some xs →
  values s = {| base := l; start := 0; stop := length xs |} →
  (∀ lo h' buf',
     h0 ⊆ h' → h0 !! lo = None → lo ≠ l →
     h' !! lo = Some (rolled pow4 c len xs) →
     h' !! l = Some buf' → length buf' = length xs →
     take 1 buf' = take 1 xs →
     Q (with_values s {| base := lo; start := 0;
                         stop := length (rolled pow4 c len xs) |}) h') →
  wp (Series_rolling_apply s 2 2 (mcg_ pow4 c len)) h Q.
Proof.
  intros Hsub Hpriv Hl Hs HQ. unfold Series_rolling_apply, prep_values.
  rewrite Hs. do 2 apply wp_bind. eapply wp_tolist; [done|].
  rewrite tolist_whole.
  destruct (existsb F.isinf xs) eqn:Hinf.
  - (* an infinity: the loop runs on a converted copy *)
    apply wp_array. intros la Hla. rewrite length_fmap.
    apply wp_bind. unfold size at 1. simpl stop. simpl start.
    rewrite Nat.sub_0_r.
    rewrite <- (length_fmap kill_inf xs) at 1 2.
    eapply roll_apply_spec; [apply lookup_insert_eq|].
    intros buf' Hlen Htake. rewrite insert_insert_eq.
    apply wp_bind, wp_array. intros lo Hlo. apply wp_ret.
    assert (lo ≠ la) by (intros ->; by rewrite lookup_insert_eq in Hlo).
    assert (la ≠ l) by congruence.
    assert (h !! lo = None) by (by rewrite lookup_insert_ne in Hlo).
    assert (lo ≠ l) by congruence.
    fold (rolled pow4 c len xs).
    eapply (HQ lo _ xs); try done.
    + do 2 (apply insert_subseteq_r; [by eapply lookup_weaken_None|]). done.
    + by eapply lookup_weaken_None.
    + apply lookup_insert_eq.
    + by rewrite !lookup_insert_ne.
  - (* no infinity: the loop runs on the Series' own buffer *)
    apply wp_ret. apply wp_bind. unfold size at 1. simpl stop. simpl start.
    rewrite Nat.sub_0_r.
    eapply roll_apply_spec; [done|].
    intros buf' Hlen Htake.
    apply wp_bind, wp_array. intros lo Hlo. apply wp_ret.
    assert (lo ≠ l) by (intros ->; by rewrite lookup_insert_eq in Hlo).
    assert (h !! lo = None) by (by rewrite lookup_insert_ne in Hlo).
    replace (match xs with [] => [] | a0 :: rest => _ end)
      with (rolled pow4 c len xs)
      by (unfold rolled; by rewrite kill_inf_id).
    eapply (HQ lo _ buf'); try done.
    + do 2 (apply insert_subseteq_r; [by eapply lookup_weaken_None|]). done.
    + by eapply lookup_weaken_None.
    + apply lookup_insert_eq.
    + rewrite lookup_insert_ne by done. apply lookup_insert_eq.
Qed.

Lemma length_mcginley xs : length (mcginley pow4 c len xs) = length xs.
Proof.
  unfold mcginley.
  rewrite length_app, length_take, length_drop, length_rolled. lia.
Qed.

(** The engine: whatever the store and the Series handed in, it returns,
    its result is a new whole array holding [mcginley], and every buffer
    of the initial store is as it was. *)
Lemma calculate_result_spec s h0 buf (Q : Series → _ → Prop) :
  h0 !! base (values s) = Some buf →
  (∀ r lr h',
     let out :=
       mcginley pow4 c len
         (take (size (values s)) (drop (start (values s)) buf)) in
     h0 ⊆ h' → h0 !! lr = None → h' !! lr = Some out →
     values r = {| base := lr; start := 0; stop := length out |} →
     Q r h') →
  wp (calculate_result pow4 c len s) h0 Q.
Proof.
  intros Hbuf HQ. unfold calculate_result, Series_copy.
  set (xs := take (size (values s)) (drop (start (values s)) buf)) in *.
  do 2 apply wp_bind. eapply wp_tolist; [done|]. fold xs.
  apply wp_bind, wp_array. intros l Hl. apply wp_ret.
  apply wp_bind.
  eapply (Series_rolling_apply_spec h0 _ l xs);
    [by apply insert_subseteq|done|apply lookup_insert_eq| |].
  { unfold Series_from, with_values, subarray, size. simpl. f_equal; lia. }
  intros lo h' buf' Hsub Hlo Hne Hrolled Hbuf' Hlen Htake.
  unfold Series_append. apply wp_bind.
  eapply wp_tolist; [done|]. apply wp_bind.
  eapply wp_tolist; [done|]. apply wp_bind, wp_array.
  intros lr Hlr. apply wp_ret.
  match goal with
  | |- context [<[lr := ?v]> h'] =>
      assert (v = mcginley pow4 c len xs) as ->
  end.
  { unfold mcginley. f_equal.
    - unfold Series_upto, with_values, subarray, size. simpl.
      rewrite <- Htake. by destruct buf' as [|b buf'], xs as [|x xs].
    - unfold Series_from, with_values, subarray, size. simpl.
      destruct (rolled pow4 c len xs) as [|y out]; [done|]. simpl.
      rewrite Nat.min_id, Nat.sub_0_r. apply firstn_all. }
  eapply (HQ _ lr); [| |apply lookup_insert_eq|done].
  - apply insert_subseteq_r; [by eapply lookup_weaken_None|done].
  - by eapply lookup_weaken_None.
Qed.

End engine.

Section pipeline.
Implicit Types (h : gmap loc (list float)) (l : loc) (xs ys : list float).

Lemma length_shift k xs : length (shift k xs) = length xs.
Proof.
  unfold shift. destruct (0 <=? k)%Z;
    rewrite length_app, length_replicate;
    [rewrite length_take|rewrite length_drop]; lia.
Qed.

Lemma length_fill_value v xs : length (fill_value v xs) = length xs.
Proof. apply length_fmap. Qed.

Lemma length_pad xs : ∀ last, length (pad last xs) = length xs.
Proof.
  induction xs as [|x xs IH]; intros last; [done|]. simpl.
  destruct (F.isna x); simpl; by rewrite IH.
Qed.

Lemma length_fill_with m xs : length (fill_with m xs) = length xs.
Proof.
  destruct m; simpl; [apply length_pad|].
  by rewrite length_reverse, length_pad, length_reverse.
Qed.

Lemma length_finish offset kwargs ys :
  length (finish offset kwargs ys) = length ys.
Proof.
  unfold finish.
  destruct (fill_method kwargs); [rewrite length_fill_with|];
    (destruct (fillna kwargs); [rewrite length_fill_value|]);
    (destruct (negb _); [apply length_shift|done]).
Qed.

Lemma wp_Series_update s l xs f h (Q : unit → _ → Prop) :
  values s = {| base := l; start := 0; stop := length xs |} →
  h !! l = Some xs →
  Q tt (<[l := f xs]> h) →
  wp (Series_update s f) h Q.
Proof.
  intros Hs Hl HQ. unfold Series_update. rewrite Hs.
  apply wp_bind. eapply wp_load; [done|].
  apply wp_store; [done|]. rewrite tolist_whole. simpl.
  rewrite Nat.max_0_r, drop_all, app_nil_r. done.
Qed.

(** The whole function on a sanitised input. *)
Lemma mcgd_spec s h0 buf len offset c kwargs
    (Q : option Series → _ → Prop) :
  h0 !! base (values s) = Some buf →
  (valid_length len ≤ Z.of_nat (size (values s)))%Z →
  F.fits (valid_length len) = true →
  (∀ r lr h',
     let out :=
       finish (get_offset offset) kwargs
         (mcginley pow4 (valid_c c) (valid_length len)
            (take (size (values s)) (drop (start (values s)) buf))) in
     h0 ⊆ h' → h0 !! lr = None → h' !! lr = Some out →
     values r = {| base := lr; start := 0; stop := length out |} →
     name r = Some ("MCGD_" +:+ pretty (valid_length len)) →
     category r = Some "overlap" →
     Q (Some r) h') →
  wp (mcgd pow4 (Some s) len offset c kwargs) h0 Q.
Proof.
  intros Hbuf Hlen Hfits HQ. unfold mcgd, verify_series.
  destruct (Z.ltb_spec (Z.of_nat (size (values s))) (valid_length len));
    [lia|].
  apply wp_bind. eapply calculate_result_spec; [done..|].
  set (xs := take _ _) in *.
  set (ys := mcginley pow4 _ _ xs) in *.
  intros r lr h1 out Hsub Hpriv Hlr Hr. subst out.
  (* after the offset *)
  apply wp_bind.
  set (ys1 := if negb (get_offset offset =? 0)%Z
              then shift (get_offset offset) ys else ys).
  eapply (wp_mono _ _ (fun r1 h2 =>
            ∃ l1, h0 ⊆ h2 ∧ h0 !! l1 = None ∧ h2 !! l1 = Some ys1 ∧
                  values r1 = {| base := l1; start := 0;
                                 stop := length ys1 |})).
  { subst ys1. destruct (negb _).
    - unfold Series_shift. rewrite Hr. apply wp_bind.
      eapply wp_tolist; [done|]. rewrite tolist_whole.
      apply wp_bind, wp_array. intros l1 Hl1. apply wp_ret.
      exists l1. split_and!; [|by eapply lookup_weaken_None
                              |apply lookup_insert_eq|done].
      apply insert_subseteq_r; [by eapply lookup_weaken_None|done].
    - apply wp_ret. by exists lr. }
  intros r1 h2 (l1 & Hsub2 & Hpriv1 & Hl1 & Hr1).
  (* after the literal fill *)
  apply wp_bind.
  set (ys2 := match fillna kwargs with
              | Some v => fill_value v ys1 | None => ys1 end).
  eapply (wp_mono _ _ (fun _ h3 =>
            h0 ⊆ h3 ∧ h3 !! l1 = Some ys2 ∧ length ys2 = length ys1)).
  { subst ys2. destruct (fillna kwargs) as [v|].
    - eapply wp_Series_update; [done..|].
      split_and!; [|apply lookup_insert_eq|apply length_fill_value].
      by apply insert_subseteq_r.
    - by apply wp_ret. }
  intros _ h3 (Hsub3 & Hl3 & Hlen3).
  (* after the fill strategy *)
  apply wp_bind.
  set (ys3 := match fill_method kwargs with
              | Some m => fill_with m ys2 | None => ys2 end).
  eapply (wp_mono _ _ (fun _ h4 =>
            h0 ⊆ h4 ∧ h4 !! l1 = Some ys3 ∧ length ys3 = length ys1)).
  { subst ys3. destruct (fill_method kwargs) as [m|].
    - eapply wp_Series_update; [by rewrite Hr1, <- Hlen3|done|].
      split_and!; [|apply lookup_insert_eq|by rewrite length_fill_with].
      by apply insert_subseteq_r.
    - by apply wp_ret. }
  intros _ h4 (Hsub4 & Hl4 & Hlen4).
  apply wp_ret. eapply (HQ _ l1); try done.
  simpl. rewrite Hr1. f_equal. by rewrite <- Hlen4.
Qed.

End pipeline.

Section closed_forms.
Implicit Types (h : gmap loc (list float)) (l : loc) (xs ys : list float).

Lemma contents_whole h l xs :
  h !! l = Some xs → (Z.of_nat (length xs) < 2 ^ 63)%Z →
  contents h {| base := l; start := 0; stop := length xs |} = Some xs.
Proof.
  intros Hl Hsz. unfold contents. simpl. rewrite Hl. simpl.
  rewrite decide_True by (split; [lia|done]). by rewrite tolist_whole.
Qed.

Lemma contents_Some h a xs :
  contents h a = Some xs →
  ∃ buf, h !! base a = Some buf ∧
         xs = take (size a) (drop (start a) buf) ∧ length xs = size a ∧
         (Z.of_nat (length xs) < 2 ^ 63)%Z.
Proof.
  unfold contents. destruct (h !! base a) as [buf|]; [|done]. simpl.
  case_decide as Hwf; [|done]. intros [= <-]. exists buf.
  assert (length (take (size a) (drop (start a) buf)) = size a)
    by (rewrite length_take, length_drop; unfold size; lia).
  split_and!; [done..|]. unfold size in *. lia.
Qed.

Lemma isfinite_kill_inf x : F.isfinite x = true → kill_inf x = x.
Proof.
  unfold kill_inf, F.isfinite, F.isinf, is_finite.
  by destruct (is_nan x), (is_infinity x).
Qed.

Lemma finite_kill_inf xs :
  Forall (fun x => F.isfinite x = true) xs → kill_inf <$> xs = xs.
Proof.
  induction 1 as [|x xs Hx _ IH]; [done|].
  by rewrite fmap_cons, IH, isfinite_kill_inf.
Qed.

Lemma mcginley_cons c len x0 rest :
  mcginley pow4 c len (x0 :: rest)
  = x0 :: rec_from pow4 c len (kill_inf x0) (kill_inf x0) (kill_inf <$> rest).
Proof. done. Qed.

(** On finite observations every window is computed, from the value the
    previous call left behind. *)
Lemma rec_from_finite c len rest : ∀ praw p i q x,
  F.isfinite praw = true →
  Forall (fun x => F.isfinite x = true) rest →
  (p :: rec_from pow4 c len praw p rest) !! i = Some q →
  rest !! i = Some x →
  (p :: rec_from pow4 c len praw p rest) !! S i = Some (mcg_step pow4 c len q x).
Proof.
  induction rest as [|x0 rest IH]; intros praw p i q x Hp Hfin Hq Hx;
    [done|].
  apply Forall_cons in Hfin as [Hx0 Hfin].
  cbn [rec_from]. rewrite Hp, Hx0. cbn [andb].
  cbn [rec_from] in Hq. rewrite Hp, Hx0 in Hq. cbn [andb] in Hq.
  destruct i as [|i]; simpl in Hq, Hx.
  - by simplify_eq.
  - change ((mcg_step pow4 c len p x0
              :: rec_from pow4 c len x0 (mcg_step pow4 c len p x0) rest) !! S i
            = Some (mcg_step pow4 c len q x)).
    by apply IH.
Qed.

(** The loop never looks ahead. *)
Lemma rec_from_take c len k : ∀ rest praw p,
  rec_from pow4 c len praw p (take k rest)
  = take k (rec_from pow4 c len praw p rest).
Proof.
  induction k as [|k IH]; intros [|x rest] praw p; try done.
  simpl. destruct (_ && _); simpl; by rewrite IH.
Qed.

Lemma mcginley_take c len k xs :
  mcginley pow4 c len (take k xs) = take k (mcginley pow4 c len xs).
Proof.
  destruct xs as [|x0 rest], k as [|k]; try done.
  rewrite firstn_cons, !mcginley_cons, firstn_cons.
  by rewrite fmap_take, rec_from_take.
Qed.

Lemma mcginley_prefix c len i xs ys :
  take (S i) xs = take (S i) ys →
  mcginley pow4 c len xs !! i = mcginley pow4 c len ys !! i.
Proof.
  intros Heq.
  rewrite <- (lookup_take_lt (mcginley pow4 c len xs) (S i) i) by lia.
  rewrite <- (lookup_take_lt (mcginley pow4 c len ys) (S i) i) by lia.
  by rewrite <- !mcginley_take, Heq.
Qed.

(** Without an entry to fill, a fill strategy changes nothing. *)
Lemma pad_no_gap xs : ∀ last,
  Forall (fun x => F.isna x = false) xs → pad last xs = xs.
Proof.
  induction xs as [|x xs IH]; intros last Hxs; [done|].
  apply Forall_cons in Hxs as [Hx Hxs]. simpl. rewrite Hx.
  by rewrite IH.
Qed.

Lemma fill_with_no_gap m xs :
  Forall (fun x => F.isna x = false) xs → fill_with m xs = xs.
Proof.
  intros Hxs. destruct m; simpl; [by apply pad_no_gap|].
  rewrite pad_no_gap; [apply reverse_involutive|].
  by apply Forall_reverse.
Qed.

Lemma fill_value_no_gap v xs :
  F.isna v = false → Forall (fun x => F.isna x = false) (fill_value v xs).
Proof.
  intros Hv. unfold fill_value. apply Forall_fmap, Forall_forall.
  intros x _. simpl. by destruct (F.isna x) eqn:Hx.
Qed.

Lemma shift_gap k xs j :
  (0 < k)%Z → (Z.of_nat j < k)%Z → j < length xs →
  shift k xs !! j = Some nan.
Proof.
  intros Hk Hj Hlen. unfold shift.
  destruct (Z.leb_spec 0 k); [|lia].
  rewrite lookup_app_l by (rewrite length_replicate; lia).
  apply lookup_replicate_2. lia.
Qed.

Lemma shift_moved k xs j :
  (0 < k)%Z → (k ≤ Z.of_nat j)%Z → j < length xs →
  shift k xs !! j = xs !! (j - Z.to_nat k).
Proof.
  intros Hk Hj Hlen. unfold shift.
  destruct (Z.leb_spec 0 k); [|lia].
  replace (Z.abs_nat k `min` length xs) with (Z.to_nat k) by lia.
  rewrite lookup_app_r by (rewrite length_replicate; lia).
  rewrite length_replicate. apply lookup_take_lt. lia.
Qed.

End closed_forms.

Section runs.
Implicit Types (h : gmap loc (list float)) (l : loc) (xs ys : list float).

(** The engine as a function from data to data. *)
Lemma calculate_result_run c len s h xs :
  contents h (values s) = Some xs →
  F.fits len = true →
  ∃ r h', calculate_result pow4 c len s h = Ok r h' ∧
          contents h' (values r) = Some (mcginley pow4 c len xs) ∧ h ⊆ h'.
Proof.
  intros (buf & Hbuf & -> & _ & Hsz)%contents_Some Hfits.
  apply wp_elim. eapply calculate_result_spec; [done..|].
  intros r lr h' out Hsub _ Hlr Hr. split; [|done].
  rewrite Hr. apply contents_whole; [done|].
  subst out. by rewrite length_mcginley.
Qed.

Lemma valid_length_pos len : (0 < valid_length len)%Z.
Proof.
  destruct len as [n|]; simpl; [|lia].
  destruct (negb (n =? 0)%Z && (0 <? n)%Z) eqn:Hn; [|lia].
  apply andb_true_iff in Hn as [_ Hn]. by apply Z.ltb_lt.
Qed.

(** The whole function as a function from data to data. *)
Lemma mcgd_run s h xs len offset c kwargs :
  contents h (values s) = Some xs →
  (valid_length len ≤ Z.of_nat (length xs))%Z →
  ∃ r h', mcgd pow4 (Some s) len offset c kwargs h = Ok (Some r) h' ∧
          contents h' (values r)
          = Some (finish (get_offset offset) kwargs
                    (mcginley pow4 (valid_c c) (valid_length len) xs)) ∧
          h ⊆ h' ∧
          name r = Some ("MCGD_" +:+ pretty (valid_length len)) ∧
          category r = Some "overlap".
Proof.
  intros (buf & Hbuf & -> & Hsz & Hmax)%contents_Some Hlen.
  pose proof (valid_length_pos len) as Hpos.
  assert (Hfits : F.fits (valid_length len) = true)
    by (apply fits_small; lia).
  rewrite Hsz in Hlen.
  assert (Hwp : wp (mcgd pow4 (Some s) len offset c kwargs) h
    (fun o h' => ∃ r, o = Some r ∧
        contents h' (values r)
        = Some (finish (get_offset offset) kwargs
                  (mcginley pow4 (valid_c c) (valid_length len)
                     (take (size (values s)) (drop (start (values s)) buf))))
        ∧ h ⊆ h' ∧
        name r = Some ("MCGD_" +:+ pretty (valid_length len)) ∧
        category r = Some "overlap")).
  { eapply mcgd_spec; [done..|].
    intros r lr h' out Hsub _ Hlr Hr Hname Hcat. exists r.
    split_and!; try done. rewrite Hr. apply contents_whole; [done|].
    subst out. by rewrite length_finish, length_mcginley. }
  apply wp_elim in Hwp as (o & h' & Hrun & r & -> & ?). by exists r, h'.
Qed.

(** The engine under the validated parameters, on a sanitised input. *)
Lemma engine_run_verified s h xs len c :
  contents h (values s) = Some xs →
  (valid_length len ≤ Z.of_nat (length xs))%Z →
  ∃ r h',
    calculate_result pow4 (valid_c c) (valid_length len) s h = Ok r h' ∧
    contents h' (values r)
    = Some (mcginley pow4 (valid_c c) (valid_length len) xs) ∧ h ⊆ h'.
Proof.
  intros Hxs Hlen. apply calculate_result_run; [done|].
  apply contents_Some in Hxs as (_ & _ & _ & _ & Hmax).
  pose proof (valid_length_pos len). apply fits_small. lia.
Qed.

Lemma mcgd_unverified close len offset c kwargs h :
  verify_series close (valid_length len) = None →
  mcgd pow4 close len offset c kwargs h = Ok None h.
Proof. intros Hv. unfold mcgd. by rewrite Hv. Qed.

Lemma finish_identity ys : finish 0 no_kwargs ys = ys.
Proof. done. Qed.

End runs.

Section more_closed_forms.
Implicit Types (xs ys rest : list float).

Lemma isfinite_kill_inf_eq x : F.isfinite (kill_inf x) = F.isfinite x.
Proof.
  unfold kill_inf, F.isfinite, F.isinf, is_finite.
  destruct (is_infinity x) eqn:Hx.
  - by rewrite orb_true_r.
  - by rewrite Hx.
Qed.

(** A window that held a non-finite value when the loop started is not
    visited. *)
Lemma rec_from_gap c len rest : ∀ praw p i r y,
  (praw :: rest) !! i = Some r → rest !! i = Some y →
  F.isfinite r && F.isfinite y = false →
  rec_from pow4 c len praw p rest !! i = Some nan.
Proof.
  induction rest as [|x0 rest IH]; intros praw p i r y Hr Hy Hfin; [done|].
  destruct i as [|i]; simpl in Hr, Hy.
  - simplify_eq. simpl. by rewrite Hfin.
  - simpl. destruct (F.isfinite praw && F.isfinite x0); simpl; by eapply IH.
Qed.

(** The first window visited after a skipped one finds the raw value. *)
Lemma rec_from_restart c len rest : ∀ praw p i w x y,
  (praw :: rest) !! i = Some w → F.isfinite w = false →
  rest !! i = Some x → rest !! S i = Some y →
  F.isfinite x = true → F.isfinite y = true →
  rec_from pow4 c len praw p rest !! S i = Some (mcg_step pow4 c len x y).
Proof.
  induction rest as [|x0 rest IH]; intros praw p i w x y Hw Hwf Hx Hy Hxf Hyf;
    [done|].
  destruct i as [|i]; simpl in Hw, Hx, Hy.
  - simplify_eq. destruct rest as [|y0 rest]; [done|]. simpl in Hy.
    simplify_eq. simpl. by rewrite Hwf, Hxf, Hyf.
  - simpl. destruct (F.isfinite praw && F.isfinite x0); simpl; by eapply IH.
Qed.

Lemma mcginley_lookup_S c len x0 rest i :
  mcginley pow4 c len (x0 :: rest) !! S i
  = rec_from pow4 c len (kill_inf x0) (kill_inf x0) (kill_inf <$> rest) !! i.
Proof. by rewrite mcginley_cons. Qed.

Lemma mcginley_gap c len xs i x y :
  xs !! i = Some x → xs !! S i = Some y →
  F.isfinite x && F.isfinite y = false →
  mcginley pow4 c len xs !! S i = Some nan.
Proof.
  intros Hx Hy Hfin. destruct xs as [|x0 rest]; [done|].
  rewrite mcginley_lookup_S.
  apply (rec_from_gap _ _ _ _ _ _ (kill_inf x) (kill_inf y)).
  - by rewrite <- fmap_cons, list_lookup_fmap, Hx.
  - simpl in Hy. by rewrite list_lookup_fmap, Hy.
  - by rewrite !isfinite_kill_inf_eq.
Qed.

Lemma mcginley_finite_step c len xs i q x :
  Forall (fun x => F.isfinite x = true) xs →
  mcginley pow4 c len xs !! i = Some q → xs !! S i = Some x →
  mcginley pow4 c len xs !! S i = Some (mcg_step pow4 c len q x).
Proof.
  intros Hfin Hq Hx. destruct xs as [|x0 rest]; [done|].
  apply Forall_cons in Hfin as [Hx0 Hfin].
  rewrite mcginley_cons, isfinite_kill_inf, finite_kill_inf in * by done.
  by eapply rec_from_finite.
Qed.

Lemma pad_leading_gaps k xs :
  pad None (replicate k nan ++ xs) = replicate k nan ++ pad None xs.
Proof. induction k as [|k IH]; [done|]. simpl. by rewrite IH. Qed.

Lemma pad_Some_gaps k v : pad (Some v) (replicate k nan) = replicate k v.
Proof. induction k as [|k IH]; [done|]. simpl. by rewrite IH. Qed.

Lemma pad_app_valid xs : ∀ last x ys,
  F.isna x = false →
  pad last (xs ++ x :: ys) = pad last xs ++ x :: pad (Some x) ys.
Proof.
  induction xs as [|x0 xs IH]; intros last x ys Hx; simpl.
  - by rewrite Hx.
  - destruct (F.isna x0); by rewrite IH.
Qed.

Lemma bfill_leading_gaps k x xs :
  F.isna x = false →
  fill_with bfill (replicate k nan ++ x :: xs)
  = replicate k x ++ x :: fill_with bfill xs.
Proof.
  intros Hx. simpl.
  rewrite reverse_app, reverse_replicate, reverse_cons, <- app_assoc.
  simpl. rewrite pad_app_valid, pad_Some_gaps by done.
  rewrite reverse_app, reverse_cons, reverse_replicate.
  by rewrite <- app_assoc.
Qed.

Lemma shift_back k xs j :
  (k < 0)%Z → j + Z.to_nat (- k) < length xs →
  shift k xs !! j = xs !! (j + Z.to_nat (- k)).
Proof.
  intros Hk Hj. unfold shift. destruct (Z.leb_spec 0 k); [lia|].
  replace (Z.abs_nat k `min` length xs) with (Z.to_nat (- k)) by lia.
  rewrite lookup_app_l by (rewrite length_drop; lia).
  rewrite lookup_drop. f_equal. lia.
Qed.

Lemma shift_back_gap k xs j :
  (k < 0)%Z → j < length xs → length xs ≤ j + Z.to_nat (- k) →
  shift k xs !! j = Some nan.
Proof.
  intros Hk Hj Hge. unfold shift. destruct (Z.leb_spec 0 k); [lia|].
  rewrite lookup_app_r by (rewrite length_drop; lia).
  apply lookup_replicate_2. rewrite length_drop. lia.
Qed.

Lemma shift_all_gaps k xs :
  (Z.of_nat (length xs) ≤ Z.abs k)%Z →
  shift k xs = replicate (length xs) nan.
Proof.
  intros Hk. unfold shift.
  replace (Z.abs_nat k `min` length xs) with (length xs) by lia.
  destruct (0 <=? k)%Z.
  - by rewrite Nat.sub_diag, take_0, app_nil_r.
  - by rewrite drop_all.
Qed.

End more_closed_forms.

(** Nothing the caller's store holds is written, on runs that return and
    on runs that raise alike: every write goes through an array whose buffer
    was allocated during the call. *)
Section frame.
Variable h0 : gmap loc (list float).
Implicit Types (h : gmap loc (list float)) (l : loc) (xs : list float).
Implicit Types (a : ndarray) (s : Series).

Lemma frames_ret {A} (x : A) (Q : A → Prop) : Q x → frames h0 (ret x) Q.
Proof. by intros HQ h Hsub. Qed.

Lemma frames_raise {A} e (Q : A → Prop) : frames h0 (raise e) Q.
Proof. by intros h Hsub. Qed.

Lemma frames_bind {A B} (m : M A) (k : A → M B) (Q : A → Prop)
    (R : B → Prop) :
  frames h0 m Q → (∀ x, Q x → frames h0 (k x) R) →
  frames h0 (x <- m ;; k x) R.
Proof.
  intros Hm Hk h Hsub. unfold bind. pose proof (Hm h Hsub) as Hmh.
  destruct (m h) as [x h'|e h']; [|done].
  destruct Hmh as [Hsub' HQ]. by apply Hk.
Qed.

Lemma frames_mono {A} (m : M A) (Q R : A → Prop) :
  frames h0 m Q → (∀ x, Q x → R x) → frames h0 m R.
Proof.
  intros Hm HQR h Hsub. pose proof (Hm h Hsub) as Hmh.
  destruct (m h); [|done]. destruct Hmh. split; auto.
Qed.

Lemma frames_load l : frames h0 (load l) (fun _ => True).
Proof. intros h Hsub. unfold load. by destruct (h !! l). Qed.

Lemma frames_store l xs :
  h0 !! l = None → frames h0 (store l xs) (fun _ => True).
Proof.
  intros Hl h Hsub. unfold store. destruct (h !! l); [|done].
  split; [|done]. by apply insert_subseteq_r.
Qed.

Lemma frames_alloc xs : frames h0 (alloc xs) (fun l => h0 !! l = None).
Proof.
  intros h Hsub. unfold alloc.
  assert (h !! fresh (dom h) = None) by apply not_elem_of_dom, is_fresh.
  assert (h0 !! fresh (dom h) = None) by (by eapply lookup_weaken_None).
  split; [|done]. by apply insert_subseteq_r.
Qed.

Lemma frames_getitem a k : frames h0 (getitem a k) (fun _ => True).
Proof.
  unfold getitem. eapply frames_bind; [apply frames_load|].
  intros buf _. case_decide; [|apply frames_raise].
  destruct (buf !! _); [by apply frames_ret|apply frames_raise].
Qed.

Lemma frames_setitem a k x :
  h0 !! base a = None → frames h0 (setitem a k x) (fun _ => True).
Proof.
  intros Ha. unfold setitem. eapply frames_bind; [apply frames_load|].
  intros buf _. case_decide; [by apply frames_store|apply frames_raise].
Qed.

Lemma frames_tolist a : frames h0 (tolist a) (fun _ => True).
Proof.
  unfold tolist. eapply frames_bind; [apply frames_load|].
  intros buf _. by apply frames_ret.
Qed.

Lemma frames_array xs :
  frames h0 (array xs) (fun a => h0 !! base a = None).
Proof.
  unfold array. eapply frames_bind; [apply frames_alloc|].
  intros l Hl. by apply frames_ret.
Qed.

Lemma frames_Series_copy s :
  frames h0 (Series_copy s) (fun r => h0 !! base (values r) = None).
Proof.
  unfold Series_copy. eapply frames_bind; [apply frames_tolist|].
  intros xs _. eapply frames_bind; [apply frames_array|].
  intros a Ha. by apply frames_ret.
Qed.

Lemma frames_mcg_ c len a :
  h0 !! base a = None → frames h0 (mcg_ pow4 c len a) (fun _ => True).
Proof.
  intros Ha. unfold mcg_, float_times_int.
  eapply (frames_bind _ _ (fun _ => True)).
  { destruct (F.of_int len); [by apply frames_ret|apply frames_raise]. }
  intros cl _. do 5 (eapply frames_bind; [apply frames_getitem|intros ? _]).
  eapply frames_bind; [by apply frames_setitem|intros ? _].
  apply frames_getitem.
Qed.

Lemma frames_roll_loop (function : ndarray → M float) a minp ws :
  (∀ lo hi, frames h0 (function (subarray a lo hi)) (fun _ => True)) →
  frames h0 (roll_loop function a minp ws) (fun _ => True).
Proof.
  intros Hf. induction ws as [|[[lo hi] cnt] ws IH]; simpl.
  - by apply frames_ret.
  - eapply (frames_bind _ _ (fun _ => True)).
    { destruct (enough cnt minp); [apply Hf|by apply frames_ret]. }
    intros y _. eapply frames_bind; [apply IH|].
    intros ys _. by apply frames_ret.
Qed.

Lemma frames_Series_rolling_apply c len s :
  h0 !! base (values s) = None →
  frames h0 (Series_rolling_apply s 2 2 (mcg_ pow4 c len))
    (fun r => h0 !! base (values r) = None).
Proof.
  intros Hs. unfold Series_rolling_apply, prep_values.
  eapply (frames_bind _ _ (fun a => h0 !! base a = None)).
  { eapply frames_bind; [apply frames_tolist|]. intros xs _.
    destruct (existsb F.isinf xs); [apply frames_array|by apply frames_ret]. }
  intros a Ha. eapply (frames_bind _ _ (fun _ => True)).
  { unfold roll_apply. eapply frames_bind; [apply frames_tolist|].
    intros xs _. case_decide; [by apply frames_ret|].
    apply frames_roll_loop. intros lo hi. by apply frames_mcg_. }
  intros out _. eapply frames_bind; [apply frames_array|].
  intros r Hr. by apply frames_ret.
Qed.

Lemma frames_Series_append s other :
  frames h0 (Series_append s other)
    (fun r => h0 !! base (values r) = None).
Proof.
  unfold Series_append. eapply frames_bind; [apply frames_tolist|].
  intros xs _. eapply frames_bind; [apply frames_tolist|].
  intros ys _. eapply frames_bind; [apply frames_array|].
  intros a Ha. by apply frames_ret.
Qed.

Lemma frames_Series_shift s k :
  frames h0 (Series_shift s k) (fun r => h0 !! base (values r) = None).
Proof.
  unfold Series_shift. eapply frames_bind; [apply frames_tolist|].
  intros xs _. eapply frames_bind; [apply frames_array|].
  intros a Ha. by apply frames_ret.
Qed.

Lemma frames_Series_update s f :
  h0 !! base (values s) = None →
  frames h0 (Series_update s f) (fun _ => True).
Proof.
  intros Hs. unfold Series_update. eapply frames_bind; [apply frames_load|].
  intros buf _. by apply frames_store.
Qed.

Lemma frames_calculate_result c len s :
  frames h0 (calculate_result pow4 c len s)
    (fun r => h0 !! base (values r) = None).
Proof.
  unfold calculate_result. eapply frames_bind; [apply frames_Series_copy|].
  intros close Hclose. eapply frames_bind.
  { by apply frames_Series_rolling_apply. }
  intros mcg_cell _. apply frames_Series_append.
Qed.

Lemma frames_mcgd close len offset c kwargs :
  frames h0 (mcgd pow4 close len offset c kwargs) (fun _ => True).
Proof.
  unfold mcgd. destruct (verify_series _ _) as [s|]; [|by apply frames_ret].
  eapply frames_bind; [apply frames_calculate_result|].
  intros mcg_ds Hds.
  eapply (frames_bind _ _ (fun r => h0 !! base (values r) = None)).
  { destruct (negb _); [apply frames_Series_shift|by apply frames_ret]. }
  intros mcg_ds' Hds'. eapply (frames_bind _ _ (fun _ => True)).
  { destruct (fillna kwargs); [by apply frames_Series_update
                              |by apply frames_ret]. }
  intros _ _. eapply (frames_bind _ _ (fun _ => True)).
  { destruct (fill_method kwargs); [by apply frames_Series_update
                                   |by apply frames_ret]. }
  intros _ _. by apply frames_ret.
Qed.

End frame.

Lemma mcgd_final_store close len offset c kwargs h :
  h ⊆ final_store (mcgd pow4 close len offset c kwargs h).
Proof.
  assert (Hrefl : h ⊆ h) by done.
  pose proof (frames_mcgd h close len offset c kwargs h Hrefl) as Hf.
  destruct (mcgd pow4 close len offset c kwargs h); simpl;
    [by destruct Hf|done].
Qed.

End model.

(** * The claims *)

Section claims.
Implicit Types (h : gmap loc (list float)) (l : loc) (xs ys : list float).
Implicit Types (s : Series).
Local Open Scope float_scope.

(** C1, as stated, fails.  On [100, 101, 99] with length 10 and c = 1 the
    value at index 2 is computed from the value stored at index 1 (about
    100.096), not from the raw 101: it is below 100, while the pairwise
    formula on (101, 99) gives more than 100.75.  And whatever [** 4] rounds
    to, as long as it maps infinity to infinity and 1 to 1: on [0, 5, 5] the
    value at index 2 is 0, while the pairwise formula on (5, 5) gives 5. *)
Lemma C1_counterexample :
  (∃ y1 y2,
     result_of (calculate_result F.pow_rn 1 10 (series_at 0 3)
                  (store_of [100; 101; 99])) = Some [100; y1; y2] ∧
     y2 = mcg_step F.pow_rn 1 10 y1 99 ∧
     y2 ≠ mcg_step F.pow_rn 1 10 101 99 ∧
     (y2 <? 100) = true ∧
     (100.75 <? mcg_step F.pow_rn 1 10 101 99) = true) ∧
  (∀ pow4, pow4 infinity = infinity → pow4 1 = 1 →
     result_of (calculate_result pow4 1 10 (series_at 0 3)
                  (store_of [0; 5; 5])) = Some [0; 0; 0] ∧
     mcg_step pow4 1 10 5 5 = 5).
Proof.
  split.
  - eexists _, _. split; [vm_compute; reflexivity|].
    split_and!; [by vm_compute| |by vm_compute..].
    intros H. apply (f_equal (fun v => v <? 100)) in H.
    vm_compute in H. discriminate H.
  - intros pow4 Hinf Hone. vm_compute in Hinf, Hone.
    destruct (calculate_result_run pow4 1 10 (series_at 0 3)
                (store_of [0; 5; 5]) [0; 5; 5])
      as (r & h' & -> & Hr & _); [by vm_compute..|].
    simpl. rewrite Hr. split.
    + do 2 (vm_compute; rewrite ?Hinf). by vm_compute.
    + vm_compute. rewrite Hone. by vm_compute.
Qed.

(** C1, amended: whatever [** 4] rounds to, on finite observations and
    with a length that converts to a float, the engine returns a sequence as
    long as its input, whose first element is the first input and whose
    element [i + 1] is [q + (x - q) / (c * length * (x / q)^4)] with [x] the
    input at [i + 1] and [q] the output (not the input) at [i].  For
    [100, 101, 99], length 10 and c = 1: the value at index 1 is the step
    from 100 to 101, the value at index 2 is the step from that value to 99;
    with the exact fourth power rounded once they are about 100.096 and
    99.98. *)
Theorem C1_recurrence :
  (∀ pow4 (c : float) (len : Z) s h xs,
     contents h (values s) = Some xs →
     F.fits len = true →
     Forall (fun x => F.isfinite x = true) xs →
     ∃ out,
       result_of (calculate_result pow4 c len s h) = Some out ∧
       length out = length xs ∧
       out !! 0%nat = xs !! 0%nat ∧
       ∀ i q x, out !! i = Some q → xs !! S i = Some x →
                out !! S i = Some (mcg_step pow4 c len q x)) ∧
  (∀ pow4, ∃ y1 y2,
     result_of (calculate_result pow4 1 10 (series_at 0 3)
                  (store_of [100; 101; 99])) = Some [100; y1; y2] ∧
     y1 = mcg_step pow4 1 10 100 101 ∧ y2 = mcg_step pow4 1 10 y1 99) ∧
  (∃ y1 y2,
     result_of (calculate_result F.pow_rn 1 10 (series_at 0 3)
                  (store_of [100; 101; 99])) = Some [100; y1; y2] ∧
     (100.09375 <? y1) && (y1 <? 100.125) = true ∧
     (99.96875 <? y2) && (y2 <? 100) = true).
Proof.
  split_and!.
  - intros pow4 c len s h xs Hxs Hfits Hfin.
    destruct (calculate_result_run pow4 c len s h xs Hxs Hfits)
      as (r & h' & Hrun & Hr & _).
    exists (mcginley pow4 c len xs). rewrite Hrun. simpl.
    split_and!; [done|apply length_mcginley|by destruct xs|].
    intros i q x Hq Hx. by apply mcginley_finite_step.
  - intros pow4.
    destruct (calculate_result_run pow4 1 10 (series_at 0 3)
                (store_of [100; 101; 99]) [100; 101; 99])
      as (r & h' & Hrun & Hr & _); [by vm_compute..|].
    eexists _, _. rewrite Hrun. simpl. rewrite Hr.
    split_and!; reflexivity.
  - eexists _, _. split; [vm_compute; reflexivity|].
    split_and!; by vm_compute.
Qed.

Lemma C1_recurrence_witness :
  ∃ out,
    result_of (calculate_result F.pow_rn 1 10 (series_at 0 3)
                 (store_of [100; 101; 99])) = Some out ∧
    length out = 3%nat ∧
    out !! 0%nat = Some 100 ∧
    ∀ i q x, out !! i = Some q → [100; 101; 99] !! S i = Some x →
             out !! S i = Some (mcg_step F.pow_rn 1 10 q x).
Proof.
  apply (proj1 C1_recurrence F.pow_rn 1 10%Z (series_at 0 3)
           (store_of [100; 101; 99]) [100; 101; 99]).
  - vm_compute. reflexivity.
  - vm_compute. reflexivity.
  - repeat constructor.
Defined.

(** C2, as stated, fails.  [100, 101, 99] and [50, 101, 99] agree at
    positions 1 and 2, and their outputs at position 2 differ.  And
    whatever [** 4] rounds to, as long as it maps infinity to infinity and
    1 to 1: [0, 5, 5] and [5, 5, 5] agree at positions 1 and 2, and their
    outputs at position 2 are 0 and 5. *)
Lemma C2_counterexample :
  (∃ y1 y2 z1 z2,
     result_of (calculate_result F.pow_rn 1 10 (series_at 0 3)
                  (store_of [100; 101; 99])) = Some [100; y1; y2] ∧
     result_of (calculate_result F.pow_rn 1 10 (series_at 0 3)
                  (store_of [50; 101; 99])) = Some [50; z1; z2] ∧
     y2 ≠ z2) ∧
  (∀ pow4, pow4 infinity = infinity → pow4 1 = 1 →
     result_of (calculate_result pow4 1 10 (series_at 0 3)
                  (store_of [0; 5; 5])) = Some [0; 0; 0] ∧
     result_of (calculate_result pow4 1 10 (series_at 0 3)
                  (store_of [5; 5; 5])) = Some [5; 5; 5]).
Proof.
  split.
  - eexists _, _, _, _. split_and!; [vm_compute; reflexivity..|].
    intros H. apply (f_equal (fun v => v <? 60)) in H.
    vm_compute in H. discriminate H.
  - intros pow4 Hinf Hone. vm_compute in Hinf, Hone.
    destruct (calculate_result_run pow4 1 10 (series_at 0 3)
                (store_of [0; 5; 5]) [0; 5; 5])
      as (r & h' & -> & Hr & _); [by vm_compute..|].
    destruct (calculate_result_run pow4 1 10 (series_at 0 3)
                (store_of [5; 5; 5]) [5; 5; 5])
      as (r' & h'' & -> & Hr' & _); [by vm_compute..|].
    simpl. rewrite Hr, Hr'. split.
    + do 2 (vm_compute; rewrite ?Hinf). by vm_compute.
    + do 2 (vm_compute; rewrite ?Hone). by vm_compute.
Qed.

(** C2, amended: the output at [i] is determined by the inputs at positions
    0 to [i] (and the two parameters): two inputs that agree up to [i] give
    the same output at [i], whatever follows.  ([length] is one that
    converts to a float: with any other the engine raises.) *)
Theorem C2_prefix_determines pow4 (c : float) (len : Z) s1 h1 xs s2 h2 ys i :
  contents h1 (values s1) = Some xs →
  contents h2 (values s2) = Some ys →
  F.fits len = true →
  take (S i) xs = take (S i) ys →
  ∃ o1 o2,
    result_of (calculate_result pow4 c len s1 h1) = Some o1 ∧
    result_of (calculate_result pow4 c len s2 h2) = Some o2 ∧
    length o1 = length xs ∧ length o2 = length ys ∧
    o1 !! i = o2 !! i.
Proof.
  intros Hxs Hys Hfits Heq.
  destruct (calculate_result_run pow4 c len s1 h1 xs Hxs Hfits)
    as (r1 & h1' & -> & ? & _).
  destruct (calculate_result_run pow4 c len s2 h2 ys Hys Hfits)
    as (r2 & h2' & -> & ? & _).
  exists (mcginley pow4 c len xs), (mcginley pow4 c len ys). simpl.
  split_and!; [done..|apply length_mcginley|apply length_mcginley|].
  by apply mcginley_prefix.
Qed.

Lemma C2_prefix_determines_witness :
  ∃ o1 o2,
    result_of (calculate_result F.pow_rn 1 10 (series_at 0 3)
                 (store_of [100; 101; 99])) = Some o1 ∧
    result_of (calculate_result F.pow_rn 1 10 (series_at 0 3)
                 (store_of [100; 101; 7])) = Some o2 ∧
    length o1 = 3%nat ∧ length o2 = 3%nat ∧
    o1 !! 1%nat = o2 !! 1%nat.
Proof.
  apply (C2_prefix_determines F.pow_rn 1 10 (series_at 0 3)
           (store_of [100; 101; 99]) [100; 101; 99] (series_at 0 3)
           (store_of [100; 101; 7]) [100; 101; 7] 1);
    vm_compute; reflexivity.
Defined.

(** C3: with no offset and no fill option, the first element returned is
    the first element of the input. *)
Theorem C3_first_element pow4 s h xs (len : option Z) offset
    (c : option float) :
  contents h (values s) = Some xs →
  (valid_length len ≤ Z.of_nat (length xs))%Z →
  get_offset offset = 0%Z →
  ∃ out x0,
    returned (mcgd pow4 (Some s) len offset c no_kwargs h) = Some out ∧
    xs !! 0%nat = Some x0 ∧ out !! 0%nat = Some x0.
Proof.
  intros Hxs Hlen Hoff.
  destruct (mcgd_run pow4 s h xs len offset c no_kwargs Hxs Hlen)
    as (r & h' & -> & Hr & _).
  rewrite Hoff, finish_identity in Hr.
  pose proof (valid_length_pos len).
  destruct xs as [|x0 rest]; [simpl in Hlen; lia|].
  exists (mcginley pow4 (valid_c c) (valid_length len) (x0 :: rest)), x0.
  by rewrite mcginley_cons.
Qed.

Lemma C3_first_element_witness :
  ∃ out x0,
    returned (mcgd F.pow_rn (Some (series_at 0 3)) (Some 3%Z) None (Some 1)
                no_kwargs (store_of [100; 101; 99])) = Some out ∧
    [100; 101; 99] !! 0%nat = Some x0 ∧ out !! 0%nat = Some x0.
Proof.
  apply (C3_first_element F.pow_rn (series_at 0 3) (store_of [100; 101; 99])
           [100; 101; 99] (Some 3%Z) None (Some 1)).
  - vm_compute. reflexivity.
  - vm_compute. discriminate.
  - reflexivity.
Defined.

(** C4, as stated, fails.  On [0, 5] with length 10 and c = 1 the ratio 5/0
    is infinite, so is the divisor, the quotient is 0 and the value at
    index 1 is 0: a finite number. *)
Lemma C4_counterexample :
  ∃ y,
    result_of (calculate_result F.pow_rn 1 10 (series_at 0 2)
                 (store_of [0; 5]))
    = Some [0; y] ∧
    F.isfinite y = true.
Proof. eexists. split; vm_compute; reflexivity. Qed.

(** C4, amended: whatever [** 4] rounds to, with a length that converts
    to a float the engine returns on every input and raises nothing.  What
    it returns is as long as the input and starts with the first input; a
    position whose window holds a NaN or an infinite input gets NaN; on
    finite inputs, zeros among them, every later value is the step of the
    recurrence, with no guard on a zero divisor.  So a degenerate value gives
    what IEEE arithmetic gives, finite or not: when [** 4] maps infinity to
    infinity, [0, 5] gives 0 at index 1; when it maps 0 to 0, [5, 0] gives
    minus infinity at index 1. *)
Theorem C4_no_exception :
  (∀ pow4 (c : float) (len : Z) s h xs,
     contents h (values s) = Some xs →
     F.fits len = true →
     ∃ r h' out,
       calculate_result pow4 c len s h = Ok r h' ∧
       contents h' (values r) = Some out ∧
       length out = length xs ∧
       out !! 0%nat = xs !! 0%nat ∧
       (∀ i x y, xs !! i = Some x → xs !! S i = Some y →
          F.isfinite x && F.isfinite y = false → out !! S i = Some nan) ∧
       (Forall (fun x => F.isfinite x = true) xs →
        ∀ i q x, out !! i = Some q → xs !! S i = Some x →
                 out !! S i = Some (mcg_step pow4 c len q x))) ∧
  (∀ pow4, pow4 infinity = infinity →
     result_of (calculate_result pow4 1 10 (series_at 0 2) (store_of [0; 5]))
     = Some [0; 0]) ∧
  (∀ pow4, pow4 0 = 0 →
     result_of (calculate_result pow4 1 10 (series_at 0 2) (store_of [5; 0]))
     = Some [5; neg_infinity]).
Proof.
  split_and!.
  - intros pow4 c len s h xs Hxs Hfits.
    destruct (calculate_result_run pow4 c len s h xs Hxs Hfits)
      as (r & h' & Hrun & Hr & _).
    exists r, h', (mcginley pow4 c len xs).
    split_and!; [done..|apply length_mcginley|by destruct xs| |].
    + intros i x y Hx Hy Hfin. by eapply mcginley_gap.
    + intros Hfin i q x. by apply mcginley_finite_step.
  - intros pow4 Hinf.
    destruct (calculate_result_run pow4 1 10 (series_at 0 2)
                (store_of [0; 5]) [0; 5])
      as (r & h' & -> & Hr & _); [by vm_compute..|].
    simpl. rewrite Hr. vm_compute. vm_compute in Hinf.
    rewrite Hinf. by vm_compute.
  - intros pow4 Hzero.
    destruct (calculate_result_run pow4 1 10 (series_at 0 2)
                (store_of [5; 0]) [5; 0])
      as (r & h' & -> & Hr & _); [by vm_compute..|].
    simpl. rewrite Hr. vm_compute. vm_compute in Hzero.
    rewrite Hzero. by vm_compute.
Qed.

Lemma C4_no_exception_witness :
  ∃ r h' out,
    calculate_result F.pow_rn 1 10 (series_at 0 2) (store_of [0; 5])
    = Ok r h' ∧
    contents h' (values r) = Some out ∧ length out = 2%nat ∧
    out !! 0%nat = Some 0 ∧
    (∀ i x y, [0; 5] !! i = Some x → [0; 5] !! S i = Some y →
       F.isfinite x && F.isfinite y = false → out !! S i = Some nan) ∧
    (Forall (fun x => F.isfinite x = true) [0; 5] →
     ∀ i q x, out !! i = Some q → [0; 5] !! S i = Some x →
              out !! S i = Some (mcg_step F.pow_rn 1 10 q x)).
Proof.
  apply (proj1 C4_no_exception F.pow_rn 1 10%Z (series_at 0 2)
           (store_of [0; 5]) [0; 5]).
  - vm_compute. reflexivity.
  - vm_compute. reflexivity.
Defined.

(** C5: a length that is absent or not positive acts as 10; a [c] that is
    absent or outside (0, 1] acts as 1. *)
Theorem C5_parameter_defaults pow4 close offset kwargs :
  (∀ c n, (n ≤ 0)%Z →
     mcgd pow4 close (Some n) offset c kwargs
     = mcgd pow4 close (Some 10%Z) offset c kwargs) ∧
  (∀ c, mcgd pow4 close None offset c kwargs
        = mcgd pow4 close (Some 10%Z) offset c kwargs) ∧
  (∀ len x, (0 <? x) && (x <=? 1) = false →
     mcgd pow4 close len offset (Some x) kwargs
     = mcgd pow4 close len offset (Some 1) kwargs) ∧
  (∀ len, mcgd pow4 close len offset None kwargs
          = mcgd pow4 close len offset (Some 1) kwargs).
Proof.
  split_and!.
  - intros c n Hn. unfold mcgd.
    replace (valid_length (Some n)) with 10%Z; [done|].
    simpl. destruct (Z.ltb_spec 0 n); [lia|]. by rewrite andb_false_r.
  - done.
  - intros len x Hx. unfold mcgd.
    replace (valid_c (Some x)) with 1; [done|].
    simpl. by rewrite Hx, andb_false_r.
  - done.
Qed.

Lemma C5_parameter_defaults_witness :
  mcgd F.pow_rn (Some (series_at 0 12)) (Some 0%Z) None (Some 0.5) no_kwargs
  = mcgd F.pow_rn (Some (series_at 0 12)) (Some 10%Z) None (Some 0.5)
      no_kwargs ∧
  mcgd F.pow_rn (Some (series_at 0 12)) (Some (-5)%Z) None (Some 0.5)
    no_kwargs
  = mcgd F.pow_rn (Some (series_at 0 12)) (Some 10%Z) None (Some 0.5)
      no_kwargs ∧
  mcgd F.pow_rn (Some (series_at 0 12)) (Some 7%Z) None (Some 0) no_kwargs
  = mcgd F.pow_rn (Some (series_at 0 12)) (Some 7%Z) None (Some 1)
      no_kwargs ∧
  mcgd F.pow_rn (Some (series_at 0 12)) (Some 7%Z) None (Some 2) no_kwargs
  = mcgd F.pow_rn (Some (series_at 0 12)) (Some 7%Z) None (Some 1)
      no_kwargs.
Proof.
  destruct (C5_parameter_defaults F.pow_rn (Some (series_at 0 12)) None
              no_kwargs) as (Hn & _ & Hc & _).
  split_and!.
  - apply Hn. lia.
  - apply Hn. lia.
  - apply Hc. reflexivity.
  - apply Hc. reflexivity.
Defined.

(** C6: whatever the offset and the fill options, the sequence returned
    for a sanitised input has as many elements as the input. *)
Theorem C6_same_length pow4 s h xs (len : option Z) offset
    (c : option float) kwargs :
  contents h (values s) = Some xs →
  (valid_length len ≤ Z.of_nat (length xs))%Z →
  ∃ out,
    returned (mcgd pow4 (Some s) len offset c kwargs h) = Some out ∧
    length out = length xs.
Proof.
  intros Hxs Hlen.
  destruct (mcgd_run pow4 s h xs len offset c kwargs Hxs Hlen)
    as (r & h' & -> & Hr & _).
  eexists. split; [exact Hr|].
  by rewrite length_finish, length_mcginley.
Qed.

Lemma C6_same_length_witness :
  ∃ out,
    returned (mcgd F.pow_rn (Some (series_at 0 3)) (Some 3%Z) (Some 2%Z)
                (Some 0.5) {| fillna := Some 0; fill_method := Some ffill |}
                (store_of [100; 101; 99])) = Some out ∧
    length out = 3%nat.
Proof.
  apply (C6_same_length F.pow_rn (series_at 0 3) (store_of [100; 101; 99])
           [100; 101; 99] (Some 3%Z) (Some 2%Z) (Some 0.5)
           {| fillna := Some 0; fill_method := Some ffill |}).
  - vm_compute. reflexivity.
  - vm_compute. discriminate.
Defined.

(** C7: when the sanitiser yields no series, the function returns None,
    raises nothing, and leaves the store as it found it (no copy is made, no
    window is visited). *)
Theorem C7_no_series pow4 close (len : option Z) offset (c : option float)
    kwargs h :
  verify_series close (valid_length len) = None →
  mcgd pow4 close len offset c kwargs h = Ok None h.
Proof.
  intros Hv. unfold mcgd.
  destruct (verify_series close (valid_length len)) as [s|]; [done|].
  reflexivity.
Qed.

Lemma C7_no_series_witness :
  verify_series (Some (series_at 0 3)) (valid_length None) = None ∧
  mcgd F.pow_rn (Some (series_at 0 3)) None None None no_kwargs
    (store_of [100; 101; 99])
  = Ok None (store_of [100; 101; 99]).
Proof.
  split; [reflexivity|].
  apply (C7_no_series F.pow_rn (Some (series_at 0 3)) None None None
           no_kwargs (store_of [100; 101; 99])).
  reflexivity.
Defined.

(** C8: with offset 0 the function returns what the engine computed; with
    offset [k > 0] the first [k] positions hold NaN and position [j >= k]
    holds the computed value of position [j - k], so the last [k] computed
    values do not appear. *)
Theorem C8_offset pow4 s h xs (len : option Z) (c : option float) (k : Z) :
  contents h (values s) = Some xs →
  (valid_length len ≤ Z.of_nat (length xs))%Z →
  (0 < k)%Z →
  ∃ ys out,
    result_of (calculate_result pow4 (valid_c c) (valid_length len) s h)
    = Some ys ∧
    returned (mcgd pow4 (Some s) len (Some 0%Z) c no_kwargs h) = Some ys ∧
    returned (mcgd pow4 (Some s) len (Some k) c no_kwargs h) = Some out ∧
    length out = length ys ∧
    (∀ j, (Z.of_nat j < k)%Z → (j < length ys)%nat →
          out !! j = Some nan) ∧
    (∀ j, (k ≤ Z.of_nat j)%Z → (j < length ys)%nat →
          out !! j = ys !! (j - Z.to_nat k)%nat).
Proof.
  intros Hxs Hlen Hk.
  destruct (engine_run_verified pow4 s h xs len c Hxs Hlen)
    as (r & h' & -> & Hr & _).
  destruct (mcgd_run pow4 s h xs len (Some 0%Z) c no_kwargs Hxs Hlen)
    as (r0 & h0' & -> & Hr0 & _).
  destruct (mcgd_run pow4 s h xs len (Some k) c no_kwargs Hxs Hlen)
    as (rk & hk' & -> & Hrk & _).
  set (ys := mcginley pow4 (valid_c c) (valid_length len) xs) in *.
  exists ys, (shift k ys). simpl in *.
  assert (Hfin : finish k no_kwargs ys = shift k ys).
  { unfold finish. simpl. by destruct (Z.eqb_spec k 0); [lia|]. }
  rewrite Hfin in Hrk.
  split_and!; [done..|apply length_shift| |].
  - intros j ??. by apply shift_gap.
  - intros j ??. by apply shift_moved.
Qed.

Lemma C8_offset_witness :
  ∃ ys out,
    result_of (calculate_result F.pow_rn (valid_c (Some 1))
                 (valid_length (Some 3%Z))
                 (series_at 0 3) (store_of [100; 101; 99])) = Some ys ∧
    returned (mcgd F.pow_rn (Some (series_at 0 3)) (Some 3%Z) (Some 0%Z)
                (Some 1) no_kwargs (store_of [100; 101; 99])) = Some ys ∧
    returned (mcgd F.pow_rn (Some (series_at 0 3)) (Some 3%Z) (Some 1%Z)
                (Some 1) no_kwargs (store_of [100; 101; 99])) = Some out ∧
    length out = length ys ∧
    (∀ j, (Z.of_nat j < 1)%Z → (j < length ys)%nat →
          out !! j = Some nan) ∧
    (∀ j, (1 ≤ Z.of_nat j)%Z → (j < length ys)%nat →
          out !! j = ys !! (j - Z.to_nat 1)%nat).
Proof.
  apply (C8_offset F.pow_rn (series_at 0 3) (store_of [100; 101; 99])
           [100; 101; 99] (Some 3%Z) (Some 1) 1%Z).
  - vm_compute. reflexivity.
  - vm_compute. discriminate.
  - reflexivity.
Defined.

(** C9: a call leaves every buffer of the caller's store, the one under
    [close] among them, as it was, whether it returns or raises; it returns
    whenever the validated length converts to a float; yet the window
    function does write: run on a window of the caller's buffer it would
    overwrite the window's second slot. *)
Theorem C9_input_not_mutated pow4 s h buf (len : option Z) offset
    (c : option float) kwargs :
  h !! base (values s) = Some buf →
  (final_store (mcgd pow4 (Some s) len offset c kwargs h)
     !! base (values s) = Some buf ∧
   ∀ l b, h !! l = Some b →
          final_store (mcgd pow4 (Some s) len offset c kwargs h) !! l
          = Some b) ∧
  (F.fits (valid_length len) = true →
   ∃ r h', mcgd pow4 (Some s) len offset c kwargs h = Ok r h' ∧
           h' !! base (values s) = Some buf ∧
           ∀ l b, h !! l = Some b → h' !! l = Some b) ∧
  (F.fits (valid_length len) = true →
   ∀ k a b, buf !! k = Some a → buf !! S k = Some b →
     mcg_ pow4 (valid_c c) (valid_length len)
       {| base := base (values s); start := k; stop := k + 2 |} h
     = Ok (mcg_step pow4 (valid_c c) (valid_length len) a b)
          (<[base (values s) :=
               <[S k := mcg_step pow4 (valid_c c) (valid_length len) a b]>
                 buf]> h)).
Proof.
  intros Hbuf.
  pose proof (mcgd_final_store pow4 (Some s) len offset c kwargs h) as Hsub.
  split; [|split].
  - split; [by eapply lookup_weaken|].
    intros l b Hl. by eapply lookup_weaken.
  - intros Hfits.
    destruct (verify_series (Some s) (valid_length len)) as [s'|] eqn:Hv.
    + assert (Hlen : (valid_length len ≤ Z.of_nat (size (values s)))%Z).
      { unfold verify_series in Hv. by destruct (Z.ltb_spec
          (Z.of_nat (size (values s))) (valid_length len)). }
      assert (Hwp : wp (mcgd pow4 (Some s) len offset c kwargs) h
                      (fun _ h' => h ⊆ h')).
      { eapply mcgd_spec; [done..|]. by intros. }
      apply wp_elim in Hwp as (r & h' & Hrun & Hsub').
      exists r, h'. split_and!; [done|by eapply lookup_weaken|].
      intros l b Hl. by eapply lookup_weaken.
    + exists None, h. split_and!; [by apply mcgd_unverified|done..].
  - intros Hfits k a b Ha Hb.
    assert (Hwp : wp (mcg_ pow4 (valid_c c) (valid_length len)
                        {| base := base (values s); start := k;
                           stop := k + 2 |}) h
              (fun y h' =>
                 y = mcg_step pow4 (valid_c c) (valid_length len) a b ∧
                 h' = <[base (values s) := <[S k := y]> buf]> h)).
    { by eapply mcg__spec. }
    apply wp_elim in Hwp as (y & h' & -> & -> & ->). done.
Qed.

Lemma C9_input_not_mutated_witness :
  ∃ r h',
    mcgd F.pow_rn (Some (series_at 0 3)) (Some 3%Z) None (Some 1) no_kwargs
      (store_of [100; 101; 99]) = Ok r h' ∧
    h' !! 0%nat = Some [100; 101; 99] ∧
    ∀ l b, store_of [100; 101; 99] !! l = Some b → h' !! l = Some b.
Proof.
  destruct (C9_input_not_mutated F.pow_rn (series_at 0 3)
              (store_of [100; 101; 99]) [100; 101; 99]
              (Some 3%Z) None (Some 1) no_kwargs eq_refl) as (_ & Hret & _).
  apply Hret. vm_compute. reflexivity.
Defined.

(** C10, as stated, fails when the literal is NaN: filling gaps with NaN
    leaves them, and the strategy then fills them.  With offset 1 the
    leading gap stays NaN under the literal alone and becomes 100 when a
    backward fill follows. *)
Lemma C10_counterexample :
  ∃ o1 o2,
    returned (mcgd F.pow_rn (Some (series_at 0 3)) (Some 3%Z) (Some 1%Z)
                (Some 1) {| fillna := Some nan; fill_method := Some bfill |}
                (store_of [100; 101; 99])) = Some o1 ∧
    returned (mcgd F.pow_rn (Some (series_at 0 3)) (Some 3%Z) (Some 1%Z)
                (Some 1) {| fillna := Some nan; fill_method := None |}
                (store_of [100; 101; 99])) = Some o2 ∧
    o1 !! 0%nat = Some 100 ∧ o2 !! 0%nat = Some nan ∧ o1 ≠ o2.
Proof.
  eexists _, _. split_and!; [vm_compute; reflexivity..|].
  intros H. apply (f_equal (fun o => F.isna <$> o !! 0%nat)) in H.
  vm_compute in H. discriminate H.
Qed.

(** C10, amended: when the literal fill is not NaN, supplying a fill
    strategy as well changes nothing: the result has no gap left and is the
    one the literal alone produces. *)
Theorem C10_literal_fill_wins pow4 s h xs (len : option Z) offset
    (c : option float) (v : float) (m : fill_method_t) :
  contents h (values s) = Some xs →
  (valid_length len ≤ Z.of_nat (length xs))%Z →
  F.isna v = false →
  ∃ out,
    returned (mcgd pow4 (Some s) len offset c
                {| fillna := Some v; fill_method := Some m |} h) = Some out ∧
    returned (mcgd pow4 (Some s) len offset c
                {| fillna := Some v; fill_method := None |} h) = Some out ∧
    Forall (fun x => F.isna x = false) out.
Proof.
  intros Hxs Hlen Hv.
  destruct (mcgd_run pow4 s h xs len offset c
              {| fillna := Some v; fill_method := Some m |} Hxs Hlen)
    as (r1 & h1 & -> & Hr1 & _).
  destruct (mcgd_run pow4 s h xs len offset c
              {| fillna := Some v; fill_method := None |} Hxs Hlen)
    as (r2 & h2 & -> & Hr2 & _).
  simpl. rewrite Hr1, Hr2. unfold finish. simpl.
  set (ys := if negb _ then _ else _).
  exists (fill_value v ys).
  pose proof (fill_value_no_gap v ys Hv) as Hgap.
  split_and!; [|done..]. by rewrite fill_with_no_gap.
Qed.

Lemma C10_literal_fill_wins_witness :
  ∃ out,
    returned (mcgd F.pow_rn (Some (series_at 0 3)) (Some 3%Z) (Some 1%Z)
                (Some 1) {| fillna := Some 0; fill_method := Some bfill |}
                (store_of [100; 101; 99])) = Some out ∧
    returned (mcgd F.pow_rn (Some (series_at 0 3)) (Some 3%Z) (Some 1%Z)
                (Some 1) {| fillna := Some 0; fill_method := None |}
                (store_of [100; 101; 99])) = Some out ∧
    Forall (fun x => F.isna x = false) out.
Proof.
  apply (C10_literal_fill_wins F.pow_rn (series_at 0 3)
           (store_of [100; 101; 99]) [100; 101; 99] (Some 3%Z) (Some 1%Z)
           (Some 1) 0 bfill).
  - vm_compute. reflexivity.
  - vm_compute. discriminate.
  - reflexivity.
Defined.

End claims.

(** * Further properties of the code *)


Section more_properties.
Implicit Types (h : gmap loc (list float)) (l : loc) (xs ys : list float).
Implicit Types (s : Series).
Local Open Scope float_scope.

(** X1: the Series returned for a sanitised input is named ["MCGD_"]
    followed by the validated length in decimal, and its category is
    ["overlap"], whatever name the input carried. *)
Theorem X1_name_and_category pow4 s h xs (len : option Z) offset
    (c : option float) kwargs :
  contents h (values s) = Some xs →
  (valid_length len ≤ Z.of_nat (length xs))%Z →
  ∃ r h',
    mcgd pow4 (Some s) len offset c kwargs h = Ok (Some r) h' ∧
    name r = Some ("MCGD_" +:+ pretty (valid_length len)) ∧
    category r = Some "overlap".
Proof.
  intros Hxs Hlen.
  destruct (mcgd_run pow4 s h xs len offset c kwargs Hxs Hlen)
    as (r & h' & Hrun & _ & _ & Hname & Hcat).
  by exists r, h'.
Qed.

Lemma X1_name_and_category_witness :
  ∃ r h',
    mcgd F.pow_rn (Some {| values := {| base := 0; start := 0; stop := 10 |};
                  name := Some "close"; category := None |})
      None None None no_kwargs
      (store_of [1; 2; 3; 4; 5; 6; 7; 8; 9; 10]) = Ok (Some r) h' ∧
    name r = Some "MCGD_10" ∧
    category r = Some "overlap".
Proof.
  apply (X1_name_and_category F.pow_rn
           {| values := {| base := 0; start := 0; stop := 10 |};
              name := Some "close"; category := None |}
           (store_of [1; 2; 3; 4; 5; 6; 7; 8; 9; 10])
           [1; 2; 3; 4; 5; 6; 7; 8; 9; 10] None None None no_kwargs).
  - vm_compute. reflexivity.
  - vm_compute. discriminate.
Defined.

(** X2: a negative offset [k] moves values towards the front: position [j]
    holds the computed value of position [j + |k|], and the last [|k|]
    positions hold NaN. *)
Theorem X2_negative_offset pow4 s h xs (len : option Z) (c : option float)
    (k : Z) :
  contents h (values s) = Some xs →
  (valid_length len ≤ Z.of_nat (length xs))%Z →
  (k < 0)%Z →
  ∃ ys out,
    result_of (calculate_result pow4 (valid_c c) (valid_length len) s h)
    = Some ys ∧
    returned (mcgd pow4 (Some s) len (Some k) c no_kwargs h) = Some out ∧
    length out = length ys ∧
    (∀ j, (j + Z.to_nat (- k) < length ys)%nat →
          out !! j = ys !! (j + Z.to_nat (- k))%nat) ∧
    (∀ j, (j < length ys)%nat → (length ys ≤ j + Z.to_nat (- k))%nat →
          out !! j = Some nan).
Proof.
  intros Hxs Hlen Hk.
  destruct (engine_run_verified pow4 s h xs len c Hxs Hlen)
    as (r & h' & -> & Hr & _).
  destruct (mcgd_run pow4 s h xs len (Some k) c no_kwargs Hxs Hlen)
    as (rk & hk' & -> & Hrk & _).
  set (ys := mcginley pow4 (valid_c c) (valid_length len) xs) in *.
  exists ys, (shift k ys). simpl in *.
  assert (Hfin : finish k no_kwargs ys = shift k ys).
  { unfold finish. simpl. by destruct (Z.eqb_spec k 0); [lia|]. }
  rewrite Hfin in Hrk.
  split_and!; [done..|apply length_shift| |].
  - intros j ?. by apply shift_back.
  - intros j ??. by apply shift_back_gap.
Qed.

Lemma X2_negative_offset_witness :
  ∃ ys out,
    result_of (calculate_result F.pow_rn (valid_c (Some 1))
                 (valid_length (Some 3%Z))
                 (series_at 0 3) (store_of [100; 101; 99])) = Some ys ∧
    returned (mcgd F.pow_rn (Some (series_at 0 3)) (Some 3%Z) (Some (-1)%Z)
                (Some 1)
                no_kwargs (store_of [100; 101; 99])) = Some out ∧
    length out = length ys ∧
    (∀ j, (j + Z.to_nat (- -1) < length ys)%nat →
          out !! j = ys !! (j + Z.to_nat (- -1))%nat) ∧
    (∀ j, (j < length ys)%nat → (length ys ≤ j + Z.to_nat (- -1))%nat →
          out !! j = Some nan).
Proof.
  apply (X2_negative_offset F.pow_rn (series_at 0 3) (store_of [100; 101; 99])
           [100; 101; 99] (Some 3%Z) (Some 1) (-1)%Z).
  - vm_compute. reflexivity.
  - vm_compute. discriminate.
  - reflexivity.
Defined.

(** X3: the Series returned shares no memory with the caller's store: its
    data sits in a buffer that did not exist before the call, and it covers
    that buffer from its first element. *)
Theorem X3_result_is_fresh pow4 s h xs (len : option Z) offset
    (c : option float) kwargs :
  contents h (values s) = Some xs →
  (valid_length len ≤ Z.of_nat (length xs))%Z →
  ∃ r h' out,
    mcgd pow4 (Some s) len offset c kwargs h = Ok (Some r) h' ∧
    h !! base (values r) = None ∧
    h' !! base (values r) = Some out ∧
    start (values r) = 0%nat ∧ stop (values r) = length out.
Proof.
  intros (buf & Hbuf & -> & Hsz & Hmax)%contents_Some Hlen.
  pose proof (valid_length_pos len) as Hpos.
  assert (Hfits : F.fits (valid_length len) = true)
    by (apply fits_small; lia).
  rewrite Hsz in Hlen.
  assert (Hwp : wp (mcgd pow4 (Some s) len offset c kwargs) h
    (fun o h' => ∃ r out, o = Some r ∧ h !! base (values r) = None ∧
        h' !! base (values r) = Some out ∧
        start (values r) = 0%nat ∧ stop (values r) = length out)).
  { eapply mcgd_spec; [done..|].
    intros r lr h' out _ Hfresh Hlr Hr _ _. exists r, out.
    rewrite Hr. by simpl. }
  apply wp_elim in Hwp as (o & h' & Hrun & r & out & -> & ?).
  by exists r, h', out.
Qed.

Lemma X3_result_is_fresh_witness :
  ∃ r h' out,
    mcgd F.pow_rn (Some (series_at 0 3)) (Some 3%Z) None (Some 1) no_kwargs
      (store_of [100; 101; 99]) = Ok (Some r) h' ∧
    store_of [100; 101; 99] !! base (values r) = None ∧
    h' !! base (values r) = Some out ∧
    start (values r) = 0%nat ∧ stop (values r) = length out.
Proof.
  apply (X3_result_is_fresh F.pow_rn (series_at 0 3) (store_of [100; 101; 99])
           [100; 101; 99] (Some 3%Z) None (Some 1) no_kwargs).
  - vm_compute. reflexivity.
  - vm_compute. discriminate.
Defined.

(** X4: a position whose window holds a NaN or an infinite input (its own
    or the one before it) gets NaN, whatever the arithmetic would give.
    ([length] is one that converts to a float: with any other the engine
    raises.) *)
Theorem X4_gap_in_window pow4 (c : float) (len : Z) s h xs i x y :
  contents h (values s) = Some xs →
  F.fits len = true →
  xs !! i = Some x → xs !! S i = Some y →
  F.isfinite x && F.isfinite y = false →
  ∃ out,
    result_of (calculate_result pow4 c len s h) = Some out ∧
    out !! S i = Some nan.
Proof.
  intros Hxs Hfits Hx Hy Hfin.
  destruct (calculate_result_run pow4 c len s h xs Hxs Hfits)
    as (r & h' & -> & Hr & _).
  exists (mcginley pow4 c len xs). split; [done|].
  by eapply mcginley_gap.
Qed.

Lemma X4_gap_in_window_witness :
  ∃ out,
    result_of (calculate_result F.pow_rn 1 10 (series_at 0 3)
                 (store_of [100; infinity; 99])) = Some out ∧
    out !! 2%nat = Some nan.
Proof.
  apply (X4_gap_in_window F.pow_rn 1 10 (series_at 0 3)
           (store_of [100; infinity; 99]) [100; infinity; 99] 1 infinity 99);
    vm_compute; reflexivity.
Defined.

(** X5: whatever [** 4] rounds to, the value at index 1 is the one value
    computed from two raw inputs: [input[0] + (input[1] - input[0]) /
    (c * length * (input[1] / input[0])^4)], when both are finite and the
    length converts to a float. *)
Theorem X5_first_step pow4 (c : float) (len : Z) s h xs x y :
  contents h (values s) = Some xs →
  F.fits len = true →
  xs !! 0%nat = Some x → xs !! 1%nat = Some y →
  F.isfinite x = true → F.isfinite y = true →
  ∃ out,
    result_of (calculate_result pow4 c len s h) = Some out ∧
    out !! 1%nat = Some (mcg_step pow4 c len x y).
Proof.
  intros Hxs Hfits Hx Hy Hxf Hyf.
  destruct (calculate_result_run pow4 c len s h xs Hxs Hfits)
    as (r & h' & -> & Hr & _).
  exists (mcginley pow4 c len xs). split; [done|].
  destruct xs as [|x0 [|y0 rest]]; try done.
  simpl in Hx, Hy. simplify_eq.
  rewrite mcginley_lookup_S, fmap_cons, !isfinite_kill_inf by done.
  cbn [rec_from]. by rewrite Hxf, Hyf.
Qed.

Lemma X5_first_step_witness :
  ∃ out,
    result_of (calculate_result F.pow_rn 1 10 (series_at 0 3)
                 (store_of [100; 101; 99])) = Some out ∧
    out !! 1%nat = Some (mcg_step F.pow_rn 1 10 100 101).
Proof.
  apply (X5_first_step F.pow_rn 1 10 (series_at 0 3) (store_of [100; 101; 99])
           [100; 101; 99] 100 101); vm_compute; reflexivity.
Defined.

(** X6: whatever [** 4] rounds to, after a non-finite input the
    recurrence starts again from raw values: if [input[i]] is NaN or
    infinite and the next two inputs are finite, the output at [i + 2] is
    the step from [input[i + 1]] to [input[i + 2]] (for a length that
    converts to a float). *)
Theorem X6_restart_after_gap pow4 (c : float) (len : Z) s h xs i w x y :
  contents h (values s) = Some xs →
  F.fits len = true →
  xs !! i = Some w → xs !! S i = Some x → xs !! S (S i) = Some y →
  F.isfinite w = false → F.isfinite x = true → F.isfinite y = true →
  ∃ out,
    result_of (calculate_result pow4 c len s h) = Some out ∧
    out !! S (S i) = Some (mcg_step pow4 c len x y).
Proof.
  intros Hxs Hfits Hw Hx Hy Hwf Hxf Hyf.
  destruct (calculate_result_run pow4 c len s h xs Hxs Hfits)
    as (r & h' & -> & Hr & _).
  exists (mcginley pow4 c len xs). split; [done|].
  destruct xs as [|x0 rest]; [done|]. rewrite mcginley_lookup_S.
  simpl in Hx, Hy.
  apply (rec_from_restart _ _ _ _ _ _ _ (kill_inf w)).
  - by rewrite <- fmap_cons, list_lookup_fmap, Hw.
  - by rewrite isfinite_kill_inf_eq.
  - rewrite list_lookup_fmap, Hx. simpl. by rewrite isfinite_kill_inf.
  - rewrite list_lookup_fmap, Hy. simpl. by rewrite isfinite_kill_inf.
  - done.
  - done.
Qed.

Lemma X6_restart_after_gap_witness :
  ∃ out,
    result_of (calculate_result F.pow_rn 1 10 (series_at 0 4)
                 (store_of [100; nan; 3; 4])) = Some out ∧
    out !! 3%nat = Some (mcg_step F.pow_rn 1 10 3 4).
Proof.
  apply (X6_restart_after_gap F.pow_rn 1 10 (series_at 0 4)
           (store_of [100; nan; 3; 4]) [100; nan; 3; 4] 1 nan 3 4);
    vm_compute; reflexivity.
Defined.

(** X7: the three post-processing steps compose in source order: the
    result is the engine's sequence, shifted when the offset is not 0, then
    filled with the literal when [fillna] is given, then filled by the
    strategy when [fill_method] is given. *)
Theorem X7_pipeline_order pow4 s h xs (len : option Z) offset
    (c : option float) kwargs :
  contents h (values s) = Some xs →
  (valid_length len ≤ Z.of_nat (length xs))%Z →
  ∃ ys,
    result_of (calculate_result pow4 (valid_c c) (valid_length len) s h)
    = Some ys ∧
    returned (mcgd pow4 (Some s) len offset c kwargs h)
    = Some (finish (get_offset offset) kwargs ys).
Proof.
  intros Hxs Hlen.
  destruct (engine_run_verified pow4 s h xs len c Hxs Hlen)
    as (r & h' & -> & Hr & _).
  destruct (mcgd_run pow4 s h xs len offset c kwargs Hxs Hlen)
    as (r1 & h1 & -> & Hr1 & _).
  by exists (mcginley pow4 (valid_c c) (valid_length len) xs).
Qed.

Lemma X7_pipeline_order_witness :
  ∃ ys,
    result_of (calculate_result F.pow_rn (valid_c (Some 0.5))
                 (valid_length (Some 3%Z))
                 (series_at 0 3) (store_of [100; 101; 99])) = Some ys ∧
    returned (mcgd F.pow_rn (Some (series_at 0 3)) (Some 3%Z) (Some (-1)%Z)
                (Some 0.5)
                {| fillna := Some 7; fill_method := Some bfill |}
                (store_of [100; 101; 99]))
    = Some (finish (get_offset (Some (-1)%Z))
              {| fillna := Some 7; fill_method := Some bfill |} ys).
Proof.
  apply (X7_pipeline_order F.pow_rn (series_at 0 3) (store_of [100; 101; 99])
           [100; 101; 99] (Some 3%Z) (Some (-1)%Z) (Some 0.5)
           {| fillna := Some 7; fill_method := Some bfill |}).
  - vm_compute. reflexivity.
  - vm_compute. discriminate.
Defined.

(** X8: a forward fill leaves the gaps a positive offset opens: with
    offset [k > 0] and only [fill_method] forward, the first [k] positions
    are still NaN. *)
Theorem X8_ffill_keeps_leading_gaps pow4 s h xs (len : option Z)
    (c : option float) (k : Z) :
  contents h (values s) = Some xs →
  (valid_length len ≤ Z.of_nat (length xs))%Z →
  (0 < k)%Z →
  ∃ out,
    returned (mcgd pow4 (Some s) len (Some k) c
                {| fillna := None; fill_method := Some ffill |} h)
    = Some out ∧
    ∀ j, (Z.of_nat j < k)%Z → (j < length xs)%nat → out !! j = Some nan.
Proof.
  intros Hxs Hlen Hk.
  destruct (mcgd_run pow4 s h xs len (Some k) c
              {| fillna := None; fill_method := Some ffill |} Hxs Hlen)
    as (r & h' & -> & Hr & _).
  simpl. rewrite Hr. eexists. split; [done|].
  intros j Hj Hjn. unfold finish. simpl.
  destruct (Z.eqb_spec k 0); [lia|]. simpl.
  unfold shift. destruct (Z.leb_spec 0 k); [|lia].
  rewrite pad_leading_gaps, length_mcginley.
  rewrite lookup_app_l by (rewrite length_replicate; lia).
  apply lookup_replicate_2. lia.
Qed.

Lemma X8_ffill_keeps_leading_gaps_witness :
  ∃ out,
    returned (mcgd F.pow_rn (Some (series_at 0 3)) (Some 3%Z) (Some 1%Z) (Some 1)
                {| fillna := None; fill_method := Some ffill |}
                (store_of [100; 101; 99]))
    = Some out ∧
    ∀ j, (Z.of_nat j < 1)%Z → (j < length [100; 101; 99])%nat →
         out !! j = Some nan.
Proof.
  apply (X8_ffill_keeps_leading_gaps F.pow_rn (series_at 0 3)
           (store_of [100; 101; 99]) [100; 101; 99] (Some 3%Z) (Some 1) 1%Z).
  - vm_compute. reflexivity.
  - vm_compute. discriminate.
  - reflexivity.
Defined.

(** X9: a backward fill closes the gaps a positive offset opens with the
    first input: with offset [0 < k < n], only [fill_method] backward and
    [input[0]] not NaN, positions 0 to [k] all hold [input[0]]. *)
Theorem X9_bfill_fills_leading_gaps pow4 s h xs (len : option Z)
    (c : option float) (k : Z) x0 :
  contents h (values s) = Some xs →
  (valid_length len ≤ Z.of_nat (length xs))%Z →
  (0 < k < Z.of_nat (length xs))%Z →
  xs !! 0%nat = Some x0 → F.isna x0 = false →
  ∃ out,
    returned (mcgd pow4 (Some s) len (Some k) c
                {| fillna := None; fill_method := Some bfill |} h)
    = Some out ∧
    ∀ j, (Z.of_nat j ≤ k)%Z → out !! j = Some x0.
Proof.
  intros Hxs Hlen Hk Hx0 Hna.
  destruct (mcgd_run pow4 s h xs len (Some k) c
              {| fillna := None; fill_method := Some bfill |} Hxs Hlen)
    as (r & h' & -> & Hr & _).
  cbn [returned]. rewrite Hr. eexists. split; [done|].
  intros j Hj. unfold finish. change (get_offset (Some k)) with k.
  cbn [fillna fill_method].
  destruct (Z.eqb_spec k 0); [lia|]. cbn [negb].
  unfold shift. destruct (Z.leb_spec 0 k); [|lia].
  rewrite length_mcginley.
  destruct xs as [|x rest]; [done|]. simpl in Hx0, Hk. simplify_eq.
  replace (Z.abs_nat k `min` length (x0 :: rest)) with (Z.to_nat k)
    by (simpl; lia).
  destruct (length (x0 :: rest) - Z.to_nat k)%nat as [|m] eqn:Hm;
    [simpl in Hm; lia|].
  rewrite mcginley_cons, firstn_cons.
  rewrite bfill_leading_gaps by done.
  destruct (decide (j < Z.to_nat k)%nat).
  - rewrite lookup_app_l by (rewrite length_replicate; lia).
    apply lookup_replicate_2. lia.
  - rewrite lookup_app_r by (rewrite length_replicate; lia).
    rewrite length_replicate.
    by replace (j - Z.to_nat k)%nat with 0%nat by lia.
Qed.

Lemma X9_bfill_fills_leading_gaps_witness :
  ∃ out,
    returned (mcgd F.pow_rn (Some (series_at 0 3)) (Some 3%Z) (Some 1%Z) (Some 1)
                {| fillna := None; fill_method := Some bfill |}
                (store_of [100; 101; 99]))
    = Some out ∧
    ∀ j, (Z.of_nat j ≤ 1)%Z → out !! j = Some 100.
Proof.
  apply (X9_bfill_fills_leading_gaps F.pow_rn (series_at 0 3)
           (store_of [100; 101; 99]) [100; 101; 99] (Some 3%Z) (Some 1)
           1%Z 100).
  - vm_compute. reflexivity.
  - vm_compute. discriminate.
  - vm_compute. split; reflexivity.
  - reflexivity.
  - reflexivity.
Defined.

(** X10: validation always produces parameters in range, a length of at
    least 1 and a [c] with [0 < c <= 1], and is idempotent: calling with the
    validated values is calling with the original ones. *)
Theorem X10_validated_parameters pow4 close (len : option Z) offset
    (c : option float) kwargs :
  (1 ≤ valid_length len)%Z ∧
  (0 <? valid_c c) && (valid_c c <=? 1) = true ∧
  mcgd pow4 close (Some (valid_length len)) offset (Some (valid_c c)) kwargs
  = mcgd pow4 close len offset c kwargs.
Proof.
  pose proof (valid_length_pos len) as Hpos.
  assert (Hc : F.truthy (valid_c c)
               && ((0 <? valid_c c) && (valid_c c <=? 1)) = true).
  { destruct c as [x|]; [|done]. simpl.
    by destruct (F.truthy x && ((0 <? x) && (x <=? 1))) eqn:Hx. }
  split_and!; [lia|by apply andb_true_iff in Hc as [_ ?]|].
  unfold mcgd.
  replace (valid_length (Some (valid_length len))) with (valid_length len).
  - replace (valid_c (Some (valid_c c))) with (valid_c c); [done|].
    simpl. by rewrite Hc.
  - simpl. destruct (Z.eqb_spec (valid_length len) 0); [lia|].
    by destruct (Z.ltb_spec 0 (valid_length len)); [|lia].
Qed.

(** X11: an offset as large as the series, in either direction, leaves
    nothing: every position of the result is NaN. *)
Theorem X11_offset_beyond_length pow4 s h xs (len : option Z)
    (c : option float) (k : Z) :
  contents h (values s) = Some xs →
  (valid_length len ≤ Z.of_nat (length xs))%Z →
  (Z.of_nat (length xs) ≤ Z.abs k)%Z →
  returned (mcgd pow4 (Some s) len (Some k) c no_kwargs h)
  = Some (replicate (length xs) nan).
Proof.
  intros Hxs Hlen Hk. pose proof (valid_length_pos len).
  destruct (mcgd_run pow4 s h xs len (Some k) c no_kwargs Hxs Hlen)
    as (r & h' & -> & Hr & _).
  simpl. rewrite Hr. f_equal. unfold finish. simpl.
  destruct (Z.eqb_spec k 0); [lia|]. simpl.
  rewrite shift_all_gaps; by rewrite length_mcginley.
Qed.

Lemma X11_offset_beyond_length_witness :
  returned (mcgd F.pow_rn (Some (series_at 0 3)) (Some 3%Z) (Some (-5)%Z)
              (Some 1)
              no_kwargs (store_of [100; 101; 99]))
  = Some (replicate (length [100; 101; 99]) nan).
Proof.
  apply (X11_offset_beyond_length F.pow_rn (series_at 0 3)
           (store_of [100; 101; 99])
           [100; 101; 99] (Some 3%Z) (Some 1) (-5)%Z).
  - vm_compute. reflexivity.
  - vm_compute. discriminate.
  - vm_compute. discriminate.
Defined.

(** X12: [mcg_] needs two elements: on a window of fewer (and with a
    length that converts to a float) it raises IndexError at its first
    subscript and the store it leaves is the store it found: nothing was
    written. *)
Theorem X12_short_window_raises pow4 (c : float) (len : Z) (a : ndarray)
    h buf :
  h !! base a = Some buf → (size a < 2)%nat → F.fits len = true →
  mcg_ pow4 c len a h = Raise IndexError h.
Proof.
  intros Hbuf Hsz Hfits.
  unfold mcg_, float_times_int, F.of_int. rewrite Hfits.
  unfold bind at 1. unfold ret at 1.
  unfold bind at 1, getitem, bind, load.
  rewrite Hbuf. by rewrite decide_False by lia.
Qed.

Lemma X12_short_window_raises_witness :
  mcg_ F.pow_rn 1 10 {| base := 0; start := 2; stop := 3 |}
    (store_of [100; 101; 99])
  = Raise IndexError (store_of [100; 101; 99]).
Proof.
  apply (X12_short_window_raises F.pow_rn 1 10
           {| base := 0; start := 2; stop := 3 |}
           (store_of [100; 101; 99]) [100; 101; 99]).
  - reflexivity.
  - vm_compute. lia.
  - vm_compute. reflexivity.
Defined.

(** X13: whatever [** 4] rounds to, the whole function on finite
    observations, with no offset and no fill: the first element returned is
    the first input and every later one is the step from the element
    returned before it to the current input, with the validated
    parameters. *)
Theorem X13_mcgd_recurrence pow4 s h xs (len : option Z) offset
    (c : option float) :
  contents h (values s) = Some xs →
  (valid_length len ≤ Z.of_nat (length xs))%Z →
  get_offset offset = 0%Z →
  Forall (fun x => F.isfinite x = true) xs →
  ∃ out,
    returned (mcgd pow4 (Some s) len offset c no_kwargs h) = Some out ∧
    out !! 0%nat = xs !! 0%nat ∧
    ∀ i q x, out !! i = Some q → xs !! S i = Some x →
             out !! S i = Some (mcg_step pow4 (valid_c c) (valid_length len) q x).
Proof.
  intros Hxs Hlen Hoff Hfin.
  destruct (mcgd_run pow4 s h xs len offset c no_kwargs Hxs Hlen)
    as (r & h' & -> & Hr & _).
  rewrite Hoff, finish_identity in Hr.
  exists (mcginley pow4 (valid_c c) (valid_length len) xs).
  split_and!; [done|by destruct xs|].
  intros i q x. by apply mcginley_finite_step.
Qed.

Lemma X13_mcgd_recurrence_witness :
  ∃ out,
    returned (mcgd F.pow_rn (Some (series_at 0 3)) (Some 3%Z) None (Some 0.5)
                no_kwargs (store_of [100; 101; 99])) = Some out ∧
    out !! 0%nat = Some 100 ∧
    ∀ i q x, out !! i = Some q → [100; 101; 99] !! S i = Some x →
             out !! S i
             = Some (mcg_step F.pow_rn (valid_c (Some 0.5))
                       (valid_length (Some 3%Z))
                       q x).
Proof.
  apply (X13_mcgd_recurrence F.pow_rn (series_at 0 3) (store_of [100; 101; 99])
           [100; 101; 99] (Some 3%Z) None (Some 0.5)).
  - vm_compute. reflexivity.
  - vm_compute. discriminate.
  - reflexivity.
  - repeat constructor.
Defined.

End more_properties.
